(** * Robin: overload resolution in [reflection/overloadedset.cc]

    A shallow embedding of [OverloadedSet::call] and of the helpers of its
    anonymous namespace ([compareAlternatives], [identicalAlternatives],
    [rememberWeights], [conversionPossible], [convertSequence],
    [applyEdgeConversions]) together with the dispatch cache of
    [OverloadedSet::Cache].

    Conventions.
    - Handles ([Handle<TypeOfArgument>], [scripting_element]) are opaque
      addresses and are written as integers; a handle that may be null is an
      [option].
    - [Conversion::Weight], [ConversionRoute], the conversion table and the
      frontend live in other translation units (conversion.h,
      conversiontable.h, frontends/framework.h); they enter as interfaces
      (classes below).
    - Sizes and indices are natural numbers ([int nargs] holds the size of
      the argument vector); the value [size_t cached_alt] shares with the
      sentinel [MISSED] is an integer.
    - [dbg::trace] output is left out.
    - A failed [assert], a null-handle dereference and a read past the end of
      a vector have no defined result: helpers return [None] there and [call]
      ends in [Undefined].
    - The effects of a call that can be seen from outside are kept in a trace
      of events, next to the process-wide cache. *)

From Stdlib Require Import ZArith List Bool Lia PeanoNat.
Import ListNotations.

(** ** Handles and plain data *)

Definition scripting_element := Z.
Definition TypeOfArgument := Z.
Definition Insight := Z.

Inductive overloading_relationship :=
| OL_BETTER
| OL_WORSE
| OL_EQUIVALENT
| OL_AMBIGUOUS.

Inductive exception :=
| ArgumentArrayLimitExceededException
| OverloadingNoMatchException
| OverloadingAmbiguityException
| NoApplicableConversionException
| NativeException (payload : Z).

(** A candidate: formal signature, return type and the native callable, which
    either returns a scripting value or raises. *)
Record CFunction := {
  signature : list TypeOfArgument;
  returnType : TypeOfArgument;
  CFunction_call : list scripting_element -> scripting_element + Z
}.

(** An overloaded set: its own address (the [this] pointer the cache keys
    on) and the alternatives in registration order. *)
Record OverloadedSet := {
  this : Z;
  m_alternatives : list CFunction
}.



Definition ARGUMENT_ARRAY_LIMIT : nat := 12.

(** ** Observable effects *)

Inductive event :=
| DetectType (v : scripting_element)
| DetectInsight (v : scripting_element)
| BestSequenceRoute (formal : list TypeOfArgument)
| Trash (v : scripting_element)
| Invoke (f : CFunction) (converted : list scripting_element)
| MemoryRelease (v : scripting_element)
| SinkRelease (v : scripting_element).

Definition trashed_of (e : event) : list scripting_element :=
  match e with Trash v => [v] | _ => [] end.

Definition sink_released_of (e : event) : list scripting_element :=
  match e with SinkRelease v => [v] | _ => [] end.

Definition invoked_of (e : event) : list CFunction :=
  match e with Invoke f _ => [f] | _ => [] end.

Definition queried_of (e : event) : list (list TypeOfArgument) :=
  match e with BestSequenceRoute f => [f] | _ => [] end.

Definition frontend_of (e : event) : list scripting_element :=
  match e with DetectType v | DetectInsight v => [v] | _ => [] end.

Definition memory_released_of (e : event) : list scripting_element :=
  match e with MemoryRelease v => [v] | _ => [] end.

(** Values released through [MemoryManager::release] by an edge conversion. *)
Definition memory_released (tr : list event) := flat_map memory_released_of tr.

(** Values handed to the sink, values the sink released, candidates invoked,
    signatures the conversion table was asked about, and values shown to the
    frontend, each in order of occurrence. *)
Definition trashed (tr : list event) := flat_map trashed_of tr.
Definition sink_released (tr : list event) := flat_map sink_released_of tr.
Definition invoked (tr : list event) := flat_map invoked_of tr.
Definition queried (tr : list event) := flat_map queried_of tr.
Definition frontend_seen (tr : list event) := flat_map frontend_of tr.

(** ** The dispatch cache ([OverloadedSet::Cache]) *)

Module Cache.

Record Key := {
  group : Z;
  nargs : nat;
  args : list TypeOfArgument;
  insights : list Insight
}.

Definition IMPOSSIBLE : Z := 4294967295.
Definition MISSED : Z := 4294967287.

(** The loop of [KeyIdentityFunctor]: positions [0 .. n-1] of both keys.
    The keys [call] builds hold [nargs] entries in both arrays; arrays that
    end earlier compare unequal here. *)
Fixpoint same_entries (n : nat) (a1 : list TypeOfArgument) (i1 : list Insight)
         (a2 : list TypeOfArgument) (i2 : list Insight) : bool :=
  match n with
  | O => true
  | S n' =>
      match a1, i1, a2, i2 with
      | x1 :: a1', p1 :: i1', x2 :: a2', p2 :: i2' =>
          if negb (x1 =? x2)%Z then false
          else if negb (p1 =? p2)%Z then false
          else same_entries n' a1' i1' a2' i2'
      | _, _, _, _ => false
      end
  end.

Definition KeyIdentityFunctor (key1 key2 : Key) : bool :=
  if negb (group key1 =? group key2)%Z then false
  else if negb (nargs key1 =? nargs key2) then false
  else same_entries (nargs key1) (args key1) (insights key1)
                    (args key2) (insights key2).

(** [size_t] arithmetic wraps around. *)
Definition size_t_modulus : Z := 2 ^ 64.

(** The loop of [KeyHashFunctor]: [accum += (size_t)&*(key.args[i])]. *)
Fixpoint sum_addresses (n : nat) (a : list TypeOfArgument) (accum : Z) : Z :=
  match n with
  | O => accum
  | S n' =>
      match a with
      | x :: a' => sum_addresses n' a' ((accum + x) mod size_t_modulus)
      | [] => accum
      end
  end.

Definition KeyHashFunctor (key : Key) : Z :=
  sum_addresses (nargs key) (args key) (group key mod size_t_modulus).

(** The loop of [KeyCompareFunctor]. *)
Fixpoint less_entries (n : nat) (a1 : list TypeOfArgument) (i1 : list Insight)
         (a2 : list TypeOfArgument) (i2 : list Insight) : bool :=
  match n with
  | O => false
  | S n' =>
      match a1, i1, a2, i2 with
      | x1 :: a1', p1 :: i1', x2 :: a2', p2 :: i2' =>
          if (x1 <? x2)%Z then true
          else if (x1 >? x2)%Z then false
          else if (p1 <? p2)%Z then true
          else if (p1 >? p2)%Z then false
          else less_entries n' a1' i1' a2' i2'
      | _, _, _, _ => false
      end
  end.

Definition KeyCompareFunctor (key1 key2 : Key) : bool :=
  if (group key1 <? group key2)%Z then true
  else if (group key1 >? group key2)%Z then false
  else if nargs key1 <? nargs key2 then true
  else if nargs key2 <? nargs key1 then false
  else less_entries (nargs key1) (args key1) (insights key1)
                    (args key2) (insights key2).

(** Modelled from the spec: [Pattern::Cache] (pattern/cache.h), the store
    behind [actual_cache]. A mapping from keys to candidate indices, keys
    compared with [KeyIdentityFunctor]; [recall] answers [MISSED] when there
    is no entry; [flush] empties it. *)
Definition Internal := list (Key * Z).

Definition internal_remember (c : Internal) (key : Key) (value : Z) : Internal :=
  (key, value) :: c.

Fixpoint internal_recall (c : Internal) (key : Key) : Z :=
  match c with
  | [] => MISSED
  | (k, v) :: c' => if KeyIdentityFunctor k key then v else internal_recall c' key
  end.

Definition cloneArgsArray (n : nat) (a : list TypeOfArgument) := firstn n a.
Definition cloneInsightsArray (n : nat) (i : list Insight) := firstn n i.

Definition remember (c : Internal) (me : Z) (n : nat) (a : list TypeOfArgument)
           (i : list Insight) (chosenAlternative : Z) : Internal :=
  let args_clone := cloneArgsArray n a in
  let insights_clone := cloneInsightsArray n i in
  internal_remember c
    {| group := me; nargs := n; args := args_clone; insights := insights_clone |}
    chosenAlternative.

Definition recall (c : Internal) (me : Z) (n : nat) (a : list TypeOfArgument)
           (i : list Insight) : Z :=
  internal_recall c {| group := me; nargs := n; args := a; insights := i |}.

Definition flush (c : Internal) : Internal := [].

End Cache.

(** The state a call works on: the cache singleton and the trace. *)
Record World := {
  cache : Cache.Internal;
  trace : list event
}.

Definition log (evs : list event) (w : World) : World :=
  {| cache := cache w; trace := trace w ++ evs |}.

Definition forceRecompute (w : World) : World :=
  {| cache := Cache.flush (cache w); trace := trace w |}.

Inductive outcome :=
| Returned (result : scripting_element)
| Thrown (e : exception)
| Undefined.

(** ** Interfaces of the collaborators *)

(** [Conversion::Weight]: the order [operator<], the top element and
    [isPossible]. *)
Class WeightOps := {
  Weight : Type;
  INFINITE : Weight;
  wlt : Weight -> Weight -> bool;
  isPossible : Weight -> bool
}.

(** What the specification says of weights, as far as it is used here:
    [<] is a strict order, [INFINITE] is its maximum, and a weight is
    possible exactly when it is below [INFINITE]. *)
Class WeightLaws (W : WeightOps) : Prop := {
  wlt_asym : forall a b, wlt a b = true -> wlt b a = false;
  INFINITE_max : forall w, wlt INFINITE w = false;
  isPossible_lt : forall w, isPossible w = true <-> wlt w INFINITE = true
}.

(** Routes and the conversion table. [route_apply r v] is the converted
    value together with the transients that [ConversionRoute::apply] hands to
    the sink; [bestSingleRoute] is the table's answer for one position. *)
Class ConversionTable (W : WeightOps) := {
  ConversionRoute : Type;
  totalWeight : ConversionRoute -> Insight -> Weight;
  route_apply : ConversionRoute -> scripting_element ->
                scripting_element * list scripting_element;
  bestSingleRoute : TypeOfArgument -> Insight -> TypeOfArgument ->
                    option ConversionRoute;
  getEdgeConversion : TypeOfArgument -> option (scripting_element -> scripting_element)
}.

Class Frontend := {
  detectType : scripting_element -> TypeOfArgument;
  detectInsight : scripting_element -> Insight
}.

(** ** The helpers and [OverloadedSet::call] *)

Section Model.

Context {W : WeightOps} {CT : ConversionTable W} {FE : Frontend}.

Definition ListConversion := list ConversionRoute.
Definition WeightList := list Weight.
Definition Insights := list Insight.

(** The scanning loop of [compareAlternatives]: the three iterators move
    together; [insight_iter] is not tested against its end. *)
Fixpoint scan_witnesses (known : WeightList) (suggested : ListConversion)
         (ins : Insights) (worse_witness better_witness : bool)
  : option (bool * bool) :=
  match known, suggested with
  | known_w :: known', route :: suggested' =>
      match ins with
      | i :: ins' =>
          let suggested_weight := totalWeight route i in
          if wlt known_w suggested_weight
          then scan_witnesses known' suggested' ins' true better_witness
          else if wlt suggested_weight known_w
               then scan_witnesses known' suggested' ins' worse_witness true
               else scan_witnesses known' suggested' ins' worse_witness better_witness
      | [] => None
      end
  | _, _ => Some (worse_witness, better_witness)
  end.

Definition verdict_of (worse_witness better_witness : bool)
  : overloading_relationship :=
  if negb (Bool.eqb worse_witness better_witness)
  then (if better_witness then OL_BETTER else OL_WORSE)
  else (if better_witness then OL_AMBIGUOUS else OL_EQUIVALENT).

(** [compareAlternatives] (vector version). *)
Definition compareAlternatives (known : WeightList) (suggested : ListConversion)
           (ins : Insights) : option overloading_relationship :=
  if negb (length known =? length suggested) then None
  else if length known =? 0 then Some OL_BETTER
  else match scan_witnesses known suggested ins false false with
       | Some (worse_witness, better_witness) =>
           Some (verdict_of worse_witness better_witness)
       | None => None
       end.

Fixpoint same_arguments (args1 args2 : list TypeOfArgument) : bool :=
  match args1, args2 with
  | [], _ => true
  | a1 :: args1', a2 :: args2' =>
      if negb (a1 =? a2)%Z then false else same_arguments args1' args2'
  | _ :: _, [] => false
  end.

(** [identicalAlternatives], on handles that are not null. *)
Definition identicalAlternatives (alt1 alt2 : CFunction) : bool :=
  let args1 := signature alt1 in
  let args2 := signature alt2 in
  if negb (length args1 =? length args2) then false
  else same_arguments args1 args2.

(** [rememberWeights] (vector version): the new contents of [weights]. *)
Fixpoint rememberWeights (l : ListConversion) (ins : Insights)
  : option WeightList :=
  match l with
  | [] => Some []
  | route :: l' =>
      match ins with
      | i :: ins' =>
          match rememberWeights l' ins' with
          | Some ws => Some (totalWeight route i :: ws)
          | None => None
          end
      | [] => None
      end
  end.

Fixpoint conversionPossible (weights : WeightList) : bool :=
  match weights with
  | [] => true
  | w :: weights' =>
      if negb (isPossible w) then false else conversionPossible weights'
  end.

(** Modelled from the spec: [GarbageCollection] (memorymanager.h), the
    sink of transient values. It holds what conversions hand to it;
    [cleanUp] releases everything held and leaves the sink empty; leaving
    the scope of the sink does the same to whatever is still held. *)
Definition GarbageCollection := list scripting_element.

Definition trash (gc : GarbageCollection) (vs : list scripting_element)
           (w : World) : GarbageCollection * World :=
  (gc ++ vs, log (map Trash vs) w).

Definition cleanUp (gc : GarbageCollection) (w : World)
  : GarbageCollection * World :=
  ([], log (map SinkRelease gc) w).

Definition leave_scope (gc : GarbageCollection) (w : World) : World :=
  snd (cleanUp gc w).

(** The loop of [convertSequence]; a route handle may be null. *)
Fixpoint convert_each (original : list scripting_element)
         (conversions : list (option ConversionRoute))
         (gc : GarbageCollection) (w : World)
  : option (list scripting_element * GarbageCollection * World) :=
  match original with
  | [] => Some ([], gc, w)
  | v :: original' =>
      match conversions with
      | Some route :: conversions' =>
          let '(v', transients) := route_apply route v in
          let '(gc', w') := trash gc transients w in
          match convert_each original' conversions' gc' w' with
          | Some (converted, gc'', w'') => Some (v' :: converted, gc'', w'')
          | None => None
          end
      | _ => None
      end
  end.

(** [convertSequence] (vector version). *)
Definition convertSequence (original : list scripting_element)
           (conversions : list (option ConversionRoute))
           (gc : GarbageCollection) (w : World)
  : option (list scripting_element * GarbageCollection * World) :=
  if negb (length original =? length conversions) then None
  else convert_each original conversions gc w.

Definition applyEdgeConversions (type : TypeOfArgument)
           (value : scripting_element) (w : World)
  : scripting_element * World :=
  match getEdgeConversion type with
  | Some exit =>
      let new_value := exit value in
      (new_value, log [MemoryRelease value] w)
  | None => (value, w)
  end.

(** Modelled from the spec: [ConversionTable::bestSequenceRoute]
    (conversiontable.cc). Each position gets its route independently;
    the first position without a route raises
    [NoApplicableConversionException] ([None]). Positions are paired off. *)
Fixpoint bestSequenceRoute (actual_types : list TypeOfArgument)
         (ins : Insights) (formal : list TypeOfArgument)
  : option ListConversion :=
  match actual_types, ins, formal with
  | a :: actual_types', i :: ins', f :: formal' =>
      match bestSingleRoute a i f with
      | Some route =>
          match bestSequenceRoute actual_types' ins' formal' with
          | Some routes => Some (route :: routes)
          | None => None
          end
      | None => None
      end
  | _, _, _ => Some []
  end.

(** The local variables of the tournament. *)
Record Tournament := {
  ambiguity_alert : bool;
  lightest : option CFunction;
  cached_alt : Z;
  lightroutes : list (option ConversionRoute);
  lightweight : WeightList
}.

Definition tournament_start (nargs : nat) : Tournament :=
  {| ambiguity_alert := false;
     lightest := None;
     cached_alt := Cache.MISSED;
     lightroutes := repeat None nargs;
     lightweight := repeat INFINITE nargs |}.

(** [for (argi = 0; argi < nargs; ++argi) lightroutes[argi] = needed[argi]] *)
Fixpoint assign_routes (nargs : nat) (needed : ListConversion)
         (light : list (option ConversionRoute))
  : option (list (option ConversionRoute)) :=
  match nargs with
  | O => Some light
  | S n =>
      match needed, light with
      | route :: needed', _ :: light' =>
          match assign_routes n needed' light' with
          | Some l => Some (Some route :: l)
          | None => None
          end
      | _, _ => None
      end
  end.

(** The [try] block of the tournament for one alternative of matching
    arity, standing at position [index]. *)
Definition examine (actual_types : list TypeOfArgument) (actual_insights : Insights)
           (nargs : nat) (index : nat) (alt : CFunction) (t : Tournament)
  : option Tournament :=
  match bestSequenceRoute actual_types actual_insights (signature alt) with
  | None => Some t
  | Some needed =>
      match compareAlternatives (lightweight t) needed actual_insights with
      | None => None
      | Some OL_BETTER =>
          match assign_routes nargs needed (lightroutes t),
                rememberWeights needed actual_insights with
          | Some routes, Some weights =>
              Some {| ambiguity_alert := false;
                      lightest := Some alt;
                      cached_alt := Z.of_nat index;
                      lightroutes := routes;
                      lightweight := weights |}
          | _, _ => None
          end
      | Some OL_WORSE => Some t
      | Some _ =>
          match lightest t with
          | None => None
          | Some champion =>
              if negb (identicalAlternatives champion alt)
              then Some {| ambiguity_alert := true;
                           lightest := lightest t;
                           cached_alt := cached_alt t;
                           lightroutes := lightroutes t;
                           lightweight := lightweight t |}
              else Some t
          end
      end
  end.

(** The loop over [m_alternatives]. *)
Fixpoint tournament (actual_types : list TypeOfArgument) (actual_insights : Insights)
         (nargs : nat) (alts : list CFunction) (index : nat)
         (t : Tournament) (w : World) : option (Tournament * World) :=
  match alts with
  | [] => Some (t, w)
  | alt :: alts' =>
      if length (signature alt) =? nargs then
        match examine actual_types actual_insights nargs index alt t with
        | Some t' =>
            tournament actual_types actual_insights nargs alts' (S index) t'
                       (log [BestSequenceRoute (signature alt)] w)
        | None => None
        end
      else tournament actual_types actual_insights nargs alts' (S index) t w
  end.

Definition fingerprint_events (args : list scripting_element) : list event :=
  flat_map (fun a => [DetectType a; DetectInsight a]) args.

(** Lines 620-629: the call proper and its epilogue. *)
Definition invoke_match (match_ : option CFunction)
           (converted_args : list scripting_element)
           (gc : GarbageCollection) (w : World)
  : outcome * GarbageCollection * World :=
  match match_ with
  | Some m =>
      let w1 := log [Invoke m converted_args] w in
      match CFunction_call m converted_args with
      | inl result =>
          let '(result', w2) := applyEdgeConversions (returnType m) result w1 in
          let '(gc', w3) := cleanUp gc w2 in
          (Returned result', gc', w3)
      | inr raised => (Thrown (NativeException raised), gc, w1)
      end
  | None => (Thrown OverloadingNoMatchException, gc, w)
  end.

(** The body of [OverloadedSet::call], up to the end of the scope of [gc]. *)
Definition call_body (s : OverloadedSet) (args : list scripting_element)
           (w : World) : outcome * GarbageCollection * World :=
  let nargs := length args in
  let gc : GarbageCollection := [] in
  if ARGUMENT_ARRAY_LIMIT <? nargs
  then (Thrown ArgumentArrayLimitExceededException, gc, w)
  else
    let actual_types := map detectType args in
    let actual_insights := map detectInsight args in
    let w := log (fingerprint_events args) w in
    let cached := Cache.recall (cache w) (this s) nargs actual_types actual_insights in
    if negb (cached =? Cache.MISSED)%Z then
      match nth_error (m_alternatives s) (Z.to_nat cached) with
      | None => (Undefined, gc, w)
      | Some m =>
          let w := log [BestSequenceRoute (signature m)] w in
          match bestSequenceRoute actual_types actual_insights (signature m) with
          | None => (Thrown NoApplicableConversionException, gc, w)
          | Some needed =>
              match convertSequence args (map Some needed) gc w with
              | Some (converted_args, gc, w) =>
                  invoke_match (Some m) converted_args gc w
              | None => (Undefined, gc, w)
              end
          end
      end
    else
      match tournament actual_types actual_insights nargs (m_alternatives s) 0
                       (tournament_start nargs) w with
      | None => (Undefined, gc, w)
      | Some (t, w) =>
          if negb (conversionPossible (lightweight t))
             || match lightest t with None => true | Some _ => false end
          then (Thrown OverloadingNoMatchException, gc, w)
          else if ambiguity_alert t
          then (Thrown OverloadingAmbiguityException, gc, w)
          else
            let w := {| cache := Cache.remember (cache w) (this s) nargs
                                   actual_types actual_insights (cached_alt t);
                        trace := trace w |} in
            match convertSequence args (lightroutes t) gc w with
            | Some (converted_args, gc, w) =>
                invoke_match (lightest t) converted_args gc w
            | None => (Undefined, gc, w)
            end
      end.

(** [OverloadedSet::call]: the body, then the end of the scope of [gc]
    on every path that leaves the function. *)
Definition call (s : OverloadedSet) (args : list scripting_element)
           (w : World) : outcome * World :=
  let '(o, gc, w') := call_body s args w in
  match o with
  | Undefined => (Undefined, w')
  | _ => (o, leave_scope gc w')
  end.

(** [OverloadedSet::seekAlternative]. *)
Fixpoint seek (alts : list CFunction) (prototype : list TypeOfArgument)
  : option CFunction :=
  match alts with
  | [] => None
  | alt :: alts' =>
      if list_eq_dec Z.eq_dec (signature alt) prototype then Some alt
      else seek alts' prototype
  end.

Definition seekAlternative (s : OverloadedSet) (prototype : list TypeOfArgument)
  : option CFunction :=
  seek (m_alternatives s) prototype.

(** The loop of [compareAlternatives] (array version): positions
    [0 .. nargs-1] of the three arrays. *)
Fixpoint scan_witnesses_array (nargs : nat) (known : WeightList)
         (suggested : ListConversion) (ins : Insights)
         (worse_witness better_witness : bool) : option (bool * bool) :=
  match nargs with
  | O => Some (worse_witness, better_witness)
  | S n =>
      match known, suggested, ins with
      | known_w :: known', route :: suggested', i :: ins' =>
          let suggested_weight := totalWeight route i in
          if wlt known_w suggested_weight
          then scan_witnesses_array n known' suggested' ins' true better_witness
          else if wlt suggested_weight known_w
               then scan_witnesses_array n known' suggested' ins' worse_witness true
               else scan_witnesses_array n known' suggested' ins'
                                         worse_witness better_witness
      | _, _, _ => None
      end
  end.

(** [compareAlternatives] (array version). *)
Definition compareAlternatives_array (nargs : nat) (known : WeightList)
           (suggested : ListConversion) (ins : Insights)
  : option overloading_relationship :=
  if nargs =? 0 then Some OL_BETTER
  else match scan_witnesses_array nargs known suggested ins false false with
       | Some (worse_witness, better_witness) =>
           Some (verdict_of worse_witness better_witness)
       | None => None
       end.

(** [rememberWeights] (array version): the first [nargs] entries written
    to [weights]. *)
Fixpoint rememberWeights_array (nargs : nat) (l : ListConversion) (ins : Insights)
  : option WeightList :=
  match nargs with
  | O => Some []
  | S n =>
      match l, ins with
      | route :: l', i :: ins' =>
          match rememberWeights_array n l' ins' with
          | Some ws => Some (totalWeight route i :: ws)
          | None => None
          end
      | _, _ => None
      end
  end.

(** [conversionPossible] (array version). *)
Fixpoint conversionPossible_array (nargs : nat) (weights : WeightList)
  : option bool :=
  match nargs with
  | O => Some true
  | S n =>
      match weights with
      | w :: weights' =>
          if negb (isPossible w) then Some false
          else conversionPossible_array n weights'
      | [] => None
      end
  end.

(** [convertSequence] (array version): the first [nargs] entries written to
    [converted]. *)
Fixpoint convertSequence_array (nargs : nat) (original : list scripting_element)
         (conversions : list (option ConversionRoute))
         (gc : GarbageCollection) (w : World)
  : option (list scripting_element * GarbageCollection * World) :=
  match nargs with
  | O => Some ([], gc, w)
  | S n =>
      match original, conversions with
      | v :: original', Some route :: conversions' =>
          let '(v', transients) := route_apply route v in
          let '(gc', w') := trash gc transients w in
          match convertSequence_array n original' conversions' gc' w' with
          | Some (converted, gc'', w'') => Some (v' :: converted, gc'', w'')
          | None => None
          end
      | _, _ => None
      end
  end.

End Model.

(** ** Vocabulary of the properties *)

Section Vocabulary.

Context {W : WeightOps} {CT : ConversionTable W} {FE : Frontend}.

(** The weight vector of a list of routes under the insights, position by
    position. *)
Fixpoint weights_of (routes : ListConversion) (ins : Insights) : WeightList :=
  match routes, ins with
  | route :: routes', i :: ins' => totalWeight route i :: weights_of routes' ins'
  | _, _ => []
  end.

(** The values [convertSequence] passes on to the native callable. *)
Fixpoint converted_by (routes : ListConversion) (original : list scripting_element)
  : list scripting_element :=
  match routes, original with
  | route :: routes', v :: original' =>
      fst (route_apply route v) :: converted_by routes' original'
  | _, _ => []
  end.

(** Some position where [known] is strictly below the suggested weight
    (a witness for WORSE), and some position where the suggested weight is
    strictly below [known] (a witness for BETTER). *)
Definition favours_known (known suggested_weights : WeightList) : Prop :=
  exists n k s, nth_error known n = Some k /\
                nth_error suggested_weights n = Some s /\ wlt k s = true.

Definition favours_suggested (known suggested_weights : WeightList) : Prop :=
  exists n k s, nth_error known n = Some k /\
                nth_error suggested_weights n = Some s /\ wlt s k = true.

(** Every route the table returns for these actuals has a possible weight
    under the insight of its position. *)
Definition routes_possible (actual_types : list TypeOfArgument)
           (ins : Insights) : Prop :=
  forall formal needed,
    bestSequenceRoute actual_types ins formal = Some needed ->
    conversionPossible (weights_of needed ins) = true.

(** The transients [convertSequence] hands to the sink. *)
Fixpoint transients_by (routes : ListConversion) (original : list scripting_element)
  : list scripting_element :=
  match routes, original with
  | route :: routes', v :: original' =>
      snd (route_apply route v) ++ transients_by routes' original'
  | _, _ => []
  end.

(** The table queries of one tournament: one per alternative of the
    call's arity, in registration order. *)
Definition table_queries (nargs : nat) (alts : list CFunction) : list event :=
  map BestSequenceRoute
      (map signature (filter (fun alt => length (signature alt) =? nargs) alts)).

(** What the tournament keeps true of its variables: the vectors have the
    call's arity; while there is no champion the weights are the initial
    ones; once there is one, [cached_alt] is its position, and the stored
    routes and weights are the ones the table gives for it. *)
Definition champion_inv (actual_types : list TypeOfArgument) (ins : Insights)
           (alts : list CFunction) (t : Tournament) : Prop :=
  length (lightweight t) = length actual_types /\
  length (lightroutes t) = length actual_types /\
  match lightest t with
  | None =>
      lightweight t = repeat INFINITE (length actual_types) /\
      ambiguity_alert t = false
  | Some m =>
      exists index needed,
        cached_alt t = Z.of_nat index /\
        nth_error alts index = Some m /\
        length (signature m) = length actual_types /\
        bestSequenceRoute actual_types ins (signature m) = Some needed /\
        lightroutes t = map Some needed /\
        lightweight t = weights_of needed ins
  end.

(** Conversion of the actuals with routes already chosen, the native call,
    its epilogue and the end of the sink's scope (the common tail of both
    branches of [call]). *)
Definition dispatch (m : CFunction) (routes : ListConversion)
           (args : list scripting_element) (w : World) : outcome * World :=
  match convertSequence args (map Some routes) [] w with
  | Some (converted_args, gc, w1) =>
      match CFunction_call m converted_args with
      | inl result =>
          let '(result', w2) :=
            applyEdgeConversions (returnType m) result
                                 (log [Invoke m converted_args] w1) in
          (Returned result', leave_scope [] (snd (cleanUp gc w2)))
      | inr raised =>
          (Thrown (NativeException raised),
           leave_scope gc (log [Invoke m converted_args] w1))
      end
  | None => (Undefined, w)
  end.

Definition blank : World := {| cache := []; trace := [] |}.

(** The tournament on its own, and the index it would install. *)
Definition resolve (actual_types : list TypeOfArgument) (ins : Insights)
           (alts : list CFunction) : option Tournament :=
  match tournament actual_types ins (length actual_types) alts 0
                   (tournament_start (length actual_types)) blank with
  | Some (t, _) => Some t
  | None => None
  end.

Definition winner (s : OverloadedSet) (actual_types : list TypeOfArgument)
           (ins : Insights) : option Z :=
  match resolve actual_types ins (m_alternatives s) with
  | Some t =>
      if negb (conversionPossible (lightweight t))
         || match lightest t with None => true | Some _ => false end
      then None
      else if ambiguity_alert t then None
      else Some (cached_alt t)
  | None => None
  end.

(** A cache is sound for a set when every entry it holds for the set is
    the index installed by a winning resolution on that set. *)
Definition cache_sound (s : OverloadedSet) (c : Cache.Internal) : Prop :=
  forall actual_types ins,
    length ins = length actual_types ->
    Cache.recall c (this s) (length actual_types) actual_types ins <> Cache.MISSED ->
    winner s actual_types ins =
      Some (Cache.recall c (this s) (length actual_types) actual_types ins).

(** A history of calls, each on some set, from a given world. *)
Fixpoint run (calls : list (OverloadedSet * list scripting_element)) (w : World)
  : World :=
  match calls with
  | [] => w
  | (s, args) :: calls' => run calls' (snd (call s args w))
  end.

(** A candidate takes part in the tournament when it has the call's arity
    and the table finds a route for every position. *)
Definition viable (actual_types : list TypeOfArgument) (ins : Insights)
           (alt : CFunction) : bool :=
  (length (signature alt) =? length actual_types)
  && match bestSequenceRoute actual_types ins (signature alt) with
     | Some _ => true
     | None => false
     end.

(** The verdict of [compareAlternatives] with the two sides exchanged. *)
Definition mirrored (v : overloading_relationship) : overloading_relationship :=
  match v with
  | OL_BETTER => OL_WORSE
  | OL_WORSE => OL_BETTER
  | OL_EQUIVALENT => OL_EQUIVALENT
  | OL_AMBIGUOUS => OL_AMBIGUOUS
  end.

(** A key whose two arrays hold [nargs] entries, as [remember] and [recall]
    build them. *)
Definition well_formed_key (key : Cache.Key) : Prop :=
  length (Cache.args key) = Cache.nargs key /\
  length (Cache.insights key) = Cache.nargs key.

End Vocabulary.

(** ** A concrete instance of the interfaces

    Weights are natural numbers with a top element. A scripting value [v]
    carries its type in [v / 100] and its insight in [v mod 100]. Types:
    1 Int, 2 Double, 3 String, 4 List, 5 and 6 two vector types reached from
    List, 7 Long. The List conversions are impossible under insight 0. *)

Module Demo.

Inductive DemoWeight := Finite (n : nat) | Infinite.

Definition demo_lt (a b : DemoWeight) : bool :=
  match a, b with
  | Finite x, Finite y => x <? y
  | Finite _, Infinite => true
  | Infinite, _ => false
  end.

Definition demo_possible (a : DemoWeight) : bool :=
  match a with Finite _ => true | Infinite => false end.

#[export] Instance weights : WeightOps :=
  {| Weight := DemoWeight; INFINITE := Infinite;
     wlt := demo_lt; isPossible := demo_possible |}.

Record DemoRoute := { source : TypeOfArgument; target : TypeOfArgument }.

Definition int_as_int : DemoRoute := {| source := 1%Z; target := 1%Z |}.
Definition int_to_double : DemoRoute := {| source := 1%Z; target := 2%Z |}.
Definition int_to_long : DemoRoute := {| source := 1%Z; target := 7%Z |}.
Definition list_to_vec5 : DemoRoute := {| source := 4%Z; target := 5%Z |}.
Definition list_to_vec6 : DemoRoute := {| source := 4%Z; target := 6%Z |}.

Definition demo_weight (r : DemoRoute) (i : Insight) : DemoWeight :=
  if (source r =? target r)%Z then Finite 0
  else if (source r =? 4)%Z then (if (i =? 0)%Z then Infinite else Finite 1)
  else if (target r =? 2)%Z then Finite 1
  else Finite 2.

Definition demo_apply (r : DemoRoute) (v : scripting_element)
  : scripting_element * list scripting_element :=
  if (source r =? target r)%Z then (v, [])
  else ((v + 1000)%Z, [(v + 1000)%Z]).

Definition demo_single (a : TypeOfArgument) (i : Insight) (f : TypeOfArgument)
  : option DemoRoute :=
  if (a =? f)%Z then Some {| source := a; target := f |}
  else if (a =? 1)%Z && ((f =? 2)%Z || (f =? 7)%Z)
       then Some {| source := a; target := f |}
  else if (a =? 4)%Z && ((f =? 5)%Z || (f =? 6)%Z)
       then Some {| source := a; target := f |}
  else None.

Definition demo_edge (t : TypeOfArgument)
  : option (scripting_element -> scripting_element) :=
  if (t =? 3)%Z then Some (fun v => (v + 1)%Z) else None.

#[export] Instance table : ConversionTable weights :=
  {| ConversionRoute := DemoRoute; totalWeight := demo_weight;
     route_apply := demo_apply; bestSingleRoute := demo_single;
     getEdgeConversion := demo_edge |}.

#[export] Instance frontend : Frontend :=
  {| detectType := fun v => (v / 100)%Z;
     detectInsight := fun v => (v mod 100)%Z |}.

Definition native (tag : Z) (conv : list scripting_element)
  : scripting_element + Z := inl tag.

Definition failing (conv : list scripting_element)
  : scripting_element + Z := inr 99%Z.

Definition f_int : CFunction :=
  {| signature := [1%Z]; returnType := 1%Z; CFunction_call := native 11 |}.
Definition f_double : CFunction :=
  {| signature := [2%Z]; returnType := 2%Z; CFunction_call := native 12 |}.
Definition f_long : CFunction :=
  {| signature := [7%Z]; returnType := 3%Z; CFunction_call := native 17 |}.
Definition f_string : CFunction :=
  {| signature := [3%Z]; returnType := 3%Z; CFunction_call := native 13 |}.
Definition f_raise : CFunction :=
  {| signature := [2%Z]; returnType := 2%Z; CFunction_call := failing |}.
Definition k0 : CFunction :=
  {| signature := []; returnType := 1%Z; CFunction_call := native 20 |}.
Definition k0' : CFunction :=
  {| signature := []; returnType := 2%Z; CFunction_call := native 21 |}.
Definition g_double_vec5 : CFunction :=
  {| signature := [2%Z; 5%Z]; returnType := 1%Z; CFunction_call := native 31 |}.
Definition g_long_vec5 : CFunction :=
  {| signature := [7%Z; 5%Z]; returnType := 1%Z; CFunction_call := native 32 |}.
Definition g_int_vec5 : CFunction :=
  {| signature := [1%Z; 5%Z]; returnType := 1%Z; CFunction_call := native 33 |}.
Definition g_int_vec6 : CFunction :=
  {| signature := [1%Z; 6%Z]; returnType := 1%Z; CFunction_call := native 34 |}.

Definition h_list : CFunction :=
  {| signature := [4%Z]; returnType := 1%Z; CFunction_call := native 51 |}.
Definition h_vec5 : CFunction :=
  {| signature := [5%Z]; returnType := 1%Z; CFunction_call := native 52 |}.

Definition list_as_list : DemoRoute := {| source := 4%Z; target := 4%Z |}.
Definition g_int_list : CFunction :=
  {| signature := [1%Z; 4%Z]; returnType := 1%Z; CFunction_call := native 35 |}.
Definition key_int_list : Cache.Key :=
  {| Cache.group := 4096; Cache.nargs := 2;
     Cache.args := [1%Z; 4%Z]; Cache.insights := [5%Z; 0%Z] |}.

Definition standing (alert : bool) (champion : CFunction) (index : Z)
           (routes : list DemoRoute) (ws : list DemoWeight)
  : @Tournament weights table :=
  {| ambiguity_alert := alert;
     lightest := Some champion;
     cached_alt := index;
     lightroutes := map Some routes;
     lightweight := ws |}.

Definition set_of (alts : list CFunction) : OverloadedSet :=
  {| this := 4096; m_alternatives := alts |}.

End Demo.

(** ** Properties *)

Section Properties.

Context {W : WeightOps} {CT : ConversionTable W} {FE : Frontend}.

(** *** Witness positions *)

Lemma favours_known_nil (ss : WeightList) : ~ favours_known [] ss.
Proof. intros (n & k & s & Hk & _). destruct n; discriminate Hk. Qed.

Lemma favours_suggested_nil (ss : WeightList) : ~ favours_suggested [] ss.
Proof. intros (n & k & s & Hk & _). destruct n; discriminate Hk. Qed.

Lemma favours_known_cons k ks s ss :
  favours_known (k :: ks) (s :: ss) <-> wlt k s = true \/ favours_known ks ss.
Proof.
  split.
  - intros (n & k0 & s0 & Hk & Hs & Hlt). destruct n as [|n]; simpl in *.
    + left. congruence.
    + right. exists n, k0, s0. auto.
  - intros [Hlt | (n & k0 & s0 & Hk & Hs & Hlt)].
    + exists 0, k, s. auto.
    + exists (S n), k0, s0. auto.
Qed.

Lemma favours_suggested_cons k ks s ss :
  favours_suggested (k :: ks) (s :: ss) <->
  wlt s k = true \/ favours_suggested ks ss.
Proof.
  split.
  - intros (n & k0 & s0 & Hk & Hs & Hlt). destruct n as [|n]; simpl in *.
    + left. congruence.
    + right. exists n, k0, s0. auto.
  - intros [Hlt | (n & k0 & s0 & Hk & Hs & Hlt)].
    + exists 0, k, s. auto.
    + exists (S n), k0, s0. auto.
Qed.

(** The flags the scanning loop ends with are the flags it started with,
    raised by the witness positions it met. *)
Lemma scan_witnesses_spec
      (Hasym : forall a b : Weight, wlt a b = true -> wlt b a = false) :
  forall known suggested ins worse better,
    length suggested = length known ->
    length ins = length known ->
    exists worse' better',
      scan_witnesses known suggested ins worse better = Some (worse', better') /\
      (worse' = true <->
       worse = true \/ favours_known known (weights_of suggested ins)) /\
      (better' = true <->
       better = true \/ favours_suggested known (weights_of suggested ins)).
Proof.
  induction known as [|k known IH]; intros suggested ins worse better Hs Hi.
  - destruct suggested; [|discriminate]. simpl.
    exists worse, better. split; [reflexivity|].
    split; split; auto; intros [H|H]; auto.
    + exfalso; eapply favours_known_nil; eassumption.
    + exfalso; eapply favours_suggested_nil; eassumption.
  - destruct suggested as [|r suggested]; [discriminate|].
    destruct ins as [|i ins]; [discriminate|].
    simpl in Hs, Hi. injection Hs as Hs. injection Hi as Hi.
    simpl scan_witnesses. simpl weights_of.
    destruct (wlt k (totalWeight r i)) eqn:Hks.
    + destruct (IH suggested ins true better Hs Hi) as (w' & b' & E & Hw & Hb).
      exists w', b'. split; [exact E|].
      rewrite favours_known_cons, favours_suggested_cons.
      rewrite (Hasym _ _ Hks), Hks, Hw, Hb. clear.
      intuition congruence.
    + destruct (wlt (totalWeight r i) k) eqn:Hsk.
      * destruct (IH suggested ins worse true Hs Hi) as (w' & b' & E & Hw & Hb).
        exists w', b'. split; [exact E|].
        rewrite favours_known_cons, favours_suggested_cons.
        rewrite Hks, Hsk, Hw, Hb. clear. intuition congruence.
      * destruct (IH suggested ins worse better Hs Hi) as (w' & b' & E & Hw & Hb).
        exists w', b'. split; [exact E|].
        rewrite favours_known_cons, favours_suggested_cons.
        rewrite Hks, Hsk, Hw, Hb. clear. intuition congruence.
Qed.

(** The four verdicts in terms of witness positions, for vectors that are
    not empty. *)
Lemma compareAlternatives_cases
      (Hasym : forall a b : Weight, wlt a b = true -> wlt b a = false)
      known suggested ins :
  length suggested = length known ->
  length ins = length known ->
  known <> [] ->
  exists worse better,
    compareAlternatives known suggested ins = Some (verdict_of worse better) /\
    (worse = true <-> favours_known known (weights_of suggested ins)) /\
    (better = true <-> favours_suggested known (weights_of suggested ins)).
Proof.
  intros Hs Hi Hne. unfold compareAlternatives.
  rewrite Hs, Nat.eqb_refl. simpl negb. cbv iota.
  destruct known as [|k known]; [congruence|]. simpl length. simpl Nat.eqb. cbv iota.
  destruct (scan_witnesses_spec Hasym (k :: known) suggested ins false false Hs Hi)
    as (w' & b' & E & Hw & Hb).
  rewrite E. exists w', b'. split; [reflexivity|].
  rewrite Hw, Hb. clear. intuition congruence.
Qed.

Lemma compareAlternatives_nil suggested ins :
  compareAlternatives [] suggested ins =
  match suggested with [] => Some OL_BETTER | _ => None end.
Proof. destruct suggested; reflexivity. Qed.

(** C1. [compareAlternatives] on vectors of equal length: with zero arity
    the answer is BETTER; otherwise it is EQUIVALENT when no position
    favours either side, BETTER when some position favours the suggested
    candidate and none the known one, WORSE when some position favours the
    known one and none the suggested, and AMBIGUOUS when both kinds of
    position exist. Of the weights only the asymmetry of [<] is used. *)
Theorem compareAlternatives_lattice
        (Hasym : forall a b : Weight, wlt a b = true -> wlt b a = false)
        known suggested ins :
  length suggested = length known ->
  length ins = length known ->
  let sw := weights_of suggested ins in
  (known = [] -> compareAlternatives known suggested ins = Some OL_BETTER) /\
  (known <> [] -> ~ favours_known known sw -> ~ favours_suggested known sw ->
   compareAlternatives known suggested ins = Some OL_EQUIVALENT) /\
  (known <> [] -> ~ favours_known known sw -> favours_suggested known sw ->
   compareAlternatives known suggested ins = Some OL_BETTER) /\
  (known <> [] -> favours_known known sw -> ~ favours_suggested known sw ->
   compareAlternatives known suggested ins = Some OL_WORSE) /\
  (known <> [] -> favours_known known sw -> favours_suggested known sw ->
   compareAlternatives known suggested ins = Some OL_AMBIGUOUS).
Proof.
  intros Hs Hi sw. split.
  - intros ->. destruct suggested; [reflexivity|discriminate].
  - assert (Hc : known <> [] ->
                 exists worse better,
                   compareAlternatives known suggested ins =
                     Some (verdict_of worse better) /\
                   (worse = true <-> favours_known known sw) /\
                   (better = true <-> favours_suggested known sw))
      by (intro; apply compareAlternatives_cases; assumption).
    repeat split; intros Hne; intros;
      destruct (Hc Hne) as (w' & b' & E & Hw & Hb); rewrite E;
      destruct w', b'; try reflexivity; exfalso; intuition congruence.
Qed.

(** *** Lengths and weights *)

Lemma log_log evs1 evs2 w : log evs2 (log evs1 w) = log (evs1 ++ evs2) w.
Proof. unfold log; simpl. now rewrite app_assoc. Qed.

Lemma log_nil w : log [] w = w.
Proof. destruct w; unfold log; simpl. now rewrite app_nil_r. Qed.

Lemma weights_of_length routes ins :
  length ins = length routes -> length (weights_of routes ins) = length routes.
Proof.
  revert ins; induction routes as [|r routes IH]; intros [|i ins] H;
    simpl in *; try discriminate; auto.
Qed.

Lemma rememberWeights_weights_of routes ins :
  length ins = length routes ->
  rememberWeights routes ins = Some (weights_of routes ins).
Proof.
  revert ins; induction routes as [|r routes IH]; intros [|i ins] H;
    simpl in *; try discriminate; auto.
  rewrite IH by lia. reflexivity.
Qed.

Lemma bestSequenceRoute_length actual_types ins formal needed :
  length ins = length actual_types ->
  length formal = length actual_types ->
  bestSequenceRoute actual_types ins formal = Some needed ->
  length needed = length actual_types.
Proof.
  revert ins formal needed.
  induction actual_types as [|a actual_types IH];
    intros [|i ins] [|f formal] needed Hi Hf H; simpl in *; try discriminate.
  - injection H as <-. reflexivity.
  - destruct (bestSingleRoute a i f); [|discriminate].
    destruct (bestSequenceRoute actual_types ins formal) eqn:E; [|discriminate].
    injection H as <-. simpl. f_equal. apply (IH ins formal); auto; lia.
Qed.

Lemma assign_routes_all needed light :
  length light = length needed ->
  assign_routes (length needed) needed light = Some (map Some needed).
Proof.
  revert light; induction needed as [|r needed IH]; intros [|l light] H;
    simpl in *; try discriminate; auto.
  rewrite IH by lia. reflexivity.
Qed.

Lemma compareAlternatives_defined_length known suggested ins v :
  compareAlternatives known suggested ins = Some v ->
  length suggested = length known.
Proof.
  unfold compareAlternatives.
  destruct (length known =? length suggested) eqn:E; simpl; [|discriminate].
  apply Nat.eqb_eq in E. auto.
Qed.

Lemma conversionPossible_forall weights :
  conversionPossible weights = true <->
  forall s, In s weights -> isPossible s = true.
Proof.
  induction weights as [|x weights IH]; simpl.
  - split; [intros _ s []|reflexivity].
  - destruct (isPossible x) eqn:E; simpl.
    + rewrite IH. split.
      * intros H s [<-|Hs]; auto.
      * intros H s Hs; auto.
    + split; [discriminate|]. intros H.
      specialize (H x (or_introl eq_refl)). congruence.
Qed.

(** *** One step of the tournament *)

(** The step taken on a BETTER verdict, for a state whose vectors have the
    call's arity. *)
Lemma examine_better actual_types ins index alt t needed :
  length ins = length actual_types ->
  length (lightweight t) = length actual_types ->
  length (lightroutes t) = length actual_types ->
  bestSequenceRoute actual_types ins (signature alt) = Some needed ->
  compareAlternatives (lightweight t) needed ins = Some OL_BETTER ->
  examine actual_types ins (length actual_types) index alt t =
  Some {| ambiguity_alert := false;
          lightest := Some alt;
          cached_alt := Z.of_nat index;
          lightroutes := map Some needed;
          lightweight := weights_of needed ins |}.
Proof.
  intros Hi Hw Hr Hb Hc. unfold examine. rewrite Hb, Hc.
  pose proof (compareAlternatives_defined_length _ _ _ _ Hc) as Hn.
  rewrite Hw in Hn. rewrite <- Hn.
  rewrite assign_routes_all by congruence.
  rewrite rememberWeights_weights_of by congruence.
  reflexivity.
Qed.

Lemma tournament_app actual_types ins nargs alts1 alts2 :
  forall index t w,
    tournament actual_types ins nargs (alts1 ++ alts2) index t w =
    match tournament actual_types ins nargs alts1 index t w with
    | Some (t', w') =>
        tournament actual_types ins nargs alts2 (index + length alts1) t' w'
    | None => None
    end.
Proof.
  induction alts1 as [|alt alts1 IH]; intros index t w; simpl.
  - now rewrite Nat.add_0_r.
  - destruct (length (signature alt) =? nargs).
    + destruct (examine actual_types ins nargs index alt t); [|reflexivity].
      rewrite IH. now rewrite Nat.add_succ_r.
    + rewrite IH. now rewrite Nat.add_succ_r.
Qed.

(** *** The invariant of the tournament *)

Lemma champion_inv_start actual_types ins alts :
  champion_inv actual_types ins alts (tournament_start (length actual_types)).
Proof.
  unfold champion_inv, tournament_start; simpl.
  rewrite !repeat_length. auto.
Qed.

Lemma champion_inv_lengths actual_types ins alts t :
  champion_inv actual_types ins alts t ->
  length (lightweight t) = length actual_types /\
  length (lightroutes t) = length actual_types.
Proof. intros (H1 & H2 & _). auto. Qed.

Lemma examine_inv actual_types ins alts index alt t t' :
  length ins = length actual_types ->
  champion_inv actual_types ins alts t ->
  nth_error alts index = Some alt ->
  length (signature alt) = length actual_types ->
  examine actual_types ins (length actual_types) index alt t = Some t' ->
  champion_inv actual_types ins alts t'.
Proof.
  intros Hi Hinv Hnth Hsig H.
  destruct (champion_inv_lengths _ _ _ _ Hinv) as [Hw Hr].
  destruct (bestSequenceRoute actual_types ins (signature alt)) as [needed|] eqn:Hb.
  2:{ unfold examine in H. rewrite Hb in H. now injection H as <-. }
  pose proof (bestSequenceRoute_length _ _ _ _ Hi Hsig Hb) as Hn.
  destruct (compareAlternatives (lightweight t) needed ins) as [[]|] eqn:Hc.
  - rewrite (@examine_better actual_types ins index alt t needed Hi Hw Hr Hb Hc) in H.
    injection H as <-.
    unfold champion_inv; simpl. rewrite weights_of_length, length_map by congruence.
    repeat split; try congruence.
    exists index, needed. repeat split; assumption.
  - unfold examine in H. rewrite Hb, Hc in H. now injection H as <-.
  - unfold examine in H. rewrite Hb, Hc in H.
    destruct Hinv as (_ & _ & Hm).
    destruct (lightest t) as [champion|] eqn:Hl; [|discriminate].
    destruct (identicalAlternatives champion alt); simpl in H; injection H as <-;
      unfold champion_inv; simpl; rewrite ?Hl; auto.
  - unfold examine in H. rewrite Hb, Hc in H.
    destruct Hinv as (_ & _ & Hm).
    destruct (lightest t) as [champion|] eqn:Hl; [|discriminate].
    destruct (identicalAlternatives champion alt); simpl in H; injection H as <-;
      unfold champion_inv; simpl; rewrite ?Hl; auto.
  - unfold examine in H. rewrite Hb, Hc in H. discriminate.
Qed.

Lemma tournament_inv actual_types ins :
  length ins = length actual_types ->
  forall rest pre t w t' w',
    champion_inv actual_types ins (pre ++ rest) t ->
    tournament actual_types ins (length actual_types) rest (length pre) t w
    = Some (t', w') ->
    champion_inv actual_types ins (pre ++ rest) t'.
Proof.
  intros Hi. induction rest as [|alt rest IH]; intros pre t w t' w' Hinv H.
  - simpl in H. now injection H as <- <-.
  - simpl in H.
    assert (Hsplit : pre ++ alt :: rest = (pre ++ [alt]) ++ rest)
      by now rewrite <- app_assoc.
    assert (Hlen : S (length pre) = length (pre ++ [alt]))
      by (rewrite length_app; simpl; lia).
    rewrite Hlen in H. rewrite Hsplit in *.
    destruct (length (signature alt) =? length actual_types) eqn:Ha.
    + apply Nat.eqb_eq in Ha.
      destruct (examine actual_types ins (length actual_types) (length pre) alt t)
        as [t1|] eqn:He; [|discriminate].
      apply (IH _ _ _ _ _) with (2 := H).
      eapply examine_inv; eauto.
      rewrite <- app_assoc. simpl. now rewrite nth_error_app2, Nat.sub_diag by lia.
    + apply (IH _ _ _ _ _) with (2 := H). assumption.
Qed.

(** The tournament only adds its table queries to the trace, leaves the
    cache alone, and its verdict does not depend on the world it runs in. *)
Lemma tournament_run actual_types ins nargs alts :
  forall index t w,
    tournament actual_types ins nargs alts index t w =
    match tournament actual_types ins nargs alts index t blank with
    | Some (t', _) => Some (t', log (table_queries nargs alts) w)
    | None => None
    end.
Proof.
  unfold table_queries.
  induction alts as [|alt alts IH]; intros index t w; simpl.
  - now rewrite log_nil.
  - destruct (length (signature alt) =? nargs).
    + destruct (examine actual_types ins nargs index alt t) as [t1|]; [|reflexivity].
      rewrite IH. rewrite (IH _ _ (log _ blank)).
      destruct (tournament actual_types ins nargs alts (S index) t1 blank)
        as [[t2 w2]|]; [|reflexivity].
      simpl. now rewrite log_log.
    + apply IH.
Qed.

Lemma tournament_resolve actual_types ins alts w :
  tournament actual_types ins (length actual_types) alts 0
             (tournament_start (length actual_types)) w =
  match resolve actual_types ins alts with
  | Some t => Some (t, log (table_queries (length actual_types) alts) w)
  | None => None
  end.
Proof.
  rewrite tournament_run. unfold resolve.
  destruct (tournament actual_types ins (length actual_types) alts 0
                       (tournament_start (length actual_types)) blank)
    as [[t w']|]; reflexivity.
Qed.

Lemma resolve_inv actual_types ins alts t :
  length ins = length actual_types ->
  resolve actual_types ins alts = Some t ->
  champion_inv actual_types ins alts t.
Proof.
  intros Hi H. unfold resolve in H.
  destruct (tournament actual_types ins (length actual_types) alts 0
                       (tournament_start (length actual_types)) blank)
    as [[t' w']|] eqn:E; [|discriminate].
  injection H as ->.
  apply (tournament_inv _ _ Hi alts [] _ _ _ _ (champion_inv_start _ _ _) E).
Qed.

(** C2. In the tournament of [call], a candidate that compares BETTER
    against the champion weights becomes the champion: its position is the
    index to install, its routes are recorded, the ambiguity flag is
    cleared, and the champion weights become the candidate's own route
    weights under the insights of the call. *)
Theorem tournament_adopts_better actual_types ins pre alt t w w1 needed :
  length ins = length actual_types ->
  tournament actual_types ins (length actual_types) pre 0
             (tournament_start (length actual_types)) w = Some (t, w1) ->
  length (signature alt) = length actual_types ->
  bestSequenceRoute actual_types ins (signature alt) = Some needed ->
  compareAlternatives (lightweight t) needed ins = Some OL_BETTER ->
  tournament actual_types ins (length actual_types) (pre ++ [alt]) 0
             (tournament_start (length actual_types)) w =
  Some ({| ambiguity_alert := false;
           lightest := Some alt;
           cached_alt := Z.of_nat (length pre);
           lightroutes := map Some needed;
           lightweight := weights_of needed ins |},
        log [BestSequenceRoute (signature alt)] w1).
Proof.
  intros Hi Hpre Hsig Hb Hc.
  pose proof (tournament_inv _ _ Hi pre [] _ _ _ _ (champion_inv_start _ _ _) Hpre)
    as Hinv.
  destruct (champion_inv_lengths _ _ _ _ Hinv) as [Hw Hr].
  rewrite tournament_app, Hpre. simpl.
  rewrite (proj2 (Nat.eqb_eq _ _) Hsig).
  rewrite (@examine_better actual_types ins (length pre) alt t needed Hi Hw Hr Hb Hc).
  reflexivity.
Qed.

(** *** Ties need a champion *)

Lemma compareAlternatives_defined (WL : WeightLaws W) known suggested ins :
  length suggested = length known ->
  length ins = length known ->
  exists v, compareAlternatives known suggested ins = Some v.
Proof.
  intros Hs Hi. destruct known as [|k known].
  - destruct suggested; [|discriminate]. exists OL_BETTER. reflexivity.
  - destruct (compareAlternatives_cases (@wlt_asym W WL) (k :: known) suggested ins Hs Hi)
      as (w' & b' & E & _); [discriminate|]. eauto.
Qed.

(** Against the initial weights, routes with possible weights compare
    BETTER. *)
Lemma first_comparison_better (WL : WeightLaws W) actual_types ins alts t
      formal needed :
  length ins = length actual_types ->
  champion_inv actual_types ins alts t ->
  lightest t = None ->
  length formal = length actual_types ->
  bestSequenceRoute actual_types ins formal = Some needed ->
  conversionPossible (weights_of needed ins) = true ->
  compareAlternatives (lightweight t) needed ins = Some OL_BETTER.
Proof.
  intros Hi (Hw & Hr & Hm) Hl Hf Hb Hp. rewrite Hl in Hm. destruct Hm as [Hrep _].
  pose proof (bestSequenceRoute_length _ _ _ _ Hi Hf Hb) as Hn.
  rewrite Hrep in *. clear Hrep.
  destruct (length actual_types) as [|n].
  - destruct needed; [reflexivity|discriminate].
  - destruct (compareAlternatives_cases (@wlt_asym W WL) (repeat INFINITE (S n)) needed ins)
      as (worse & better & E & Hworse & Hbetter);
      try congruence; [discriminate|].
    rewrite E. destruct worse.
    + exfalso. destruct (proj1 Hworse eq_refl) as (p & k & s & Hk & _ & Hlt).
      apply nth_error_In in Hk. apply repeat_spec in Hk. subst k.
      rewrite INFINITE_max in Hlt. discriminate.
    + destruct better; [reflexivity|]. exfalso.
      destruct needed as [|r needed]; [discriminate|].
      destruct ins as [|i ins]; [discriminate|].
      assert (Hfs : favours_suggested (repeat INFINITE (S n))
                                      (weights_of (r :: needed) (i :: ins))).
      { exists 0, INFINITE, (totalWeight r i). simpl. repeat split.
        apply isPossible_lt.
        apply (proj1 (conversionPossible_forall _) Hp). simpl. auto. }
      apply Hbetter in Hfs. discriminate.
Qed.

Lemma examine_defined (WL : WeightLaws W) actual_types ins alts index alt t :
  length ins = length actual_types ->
  routes_possible actual_types ins ->
  champion_inv actual_types ins alts t ->
  length (signature alt) = length actual_types ->
  exists t', examine actual_types ins (length actual_types) index alt t = Some t'.
Proof.
  intros Hi Hposs Hinv Hsig.
  destruct (champion_inv_lengths _ _ _ _ Hinv) as [Hw Hr].
  destruct (bestSequenceRoute actual_types ins (signature alt)) as [needed|] eqn:Hb.
  2:{ unfold examine. rewrite Hb. eauto. }
  pose proof (bestSequenceRoute_length _ _ _ _ Hi Hsig Hb) as Hn.
  destruct (compareAlternatives_defined WL (lightweight t) needed ins)
    as [v Hc]; try congruence.
  destruct (lightest t) as [champion|] eqn:Hl.
  - destruct v.
    + rewrite (examine_better _ _ index _ _ _ Hi Hw Hr Hb Hc). eauto.
    + unfold examine. rewrite Hb, Hc. eauto.
    + unfold examine. rewrite Hb, Hc, Hl.
      destruct (identicalAlternatives champion alt); simpl; eauto.
    + unfold examine. rewrite Hb, Hc, Hl.
      destruct (identicalAlternatives champion alt); simpl; eauto.
  - pose proof (first_comparison_better WL _ _ _ _ _ _ Hi Hinv Hl Hsig Hb
                                        (Hposs _ _ Hb)) as Hc'.
    rewrite (examine_better _ _ index _ _ _ Hi Hw Hr Hb Hc'). eauto.
Qed.

Lemma tournament_defined (WL : WeightLaws W) actual_types ins :
  length ins = length actual_types ->
  routes_possible actual_types ins ->
  forall rest pre t w,
    champion_inv actual_types ins (pre ++ rest) t ->
    exists t' w',
      tournament actual_types ins (length actual_types) rest (length pre) t w
      = Some (t', w').
Proof.
  intros Hi Hposs. induction rest as [|alt rest IH]; intros pre t w Hinv.
  - simpl. eauto.
  - simpl.
    assert (Hsplit : pre ++ alt :: rest = (pre ++ [alt]) ++ rest)
      by now rewrite <- app_assoc.
    assert (Hlen : S (length pre) = length (pre ++ [alt]))
      by (rewrite length_app; simpl; lia).
    rewrite Hlen. rewrite Hsplit in Hinv.
    destruct (length (signature alt) =? length actual_types) eqn:Ha.
    + apply Nat.eqb_eq in Ha.
      destruct (examine_defined WL _ _ _ (length pre) alt _ Hi Hposs Hinv Ha)
        as [t1 He].
      rewrite He. apply IH.
      eapply examine_inv; eauto.
      rewrite <- app_assoc. simpl. now rewrite nth_error_app2, Nat.sub_diag by lia.
    + apply IH. assumption.
Qed.

(** C10. When every route a successful [bestSequenceRoute] returns has a
    possible weight under the insight of its position, the tournament never
    reaches a tie (EQUIVALENT or AMBIGUOUS) without a champion adopted
    before: at such a step the champion handle is not null, the step has a
    defined result, and so has the whole tournament. *)
Theorem tie_has_champion (WL : WeightLaws W) actual_types ins alts w :
  length ins = length actual_types ->
  routes_possible actual_types ins ->
  tournament actual_types ins (length actual_types) alts 0
             (tournament_start (length actual_types)) w <> None /\
  forall pre alt post t w1 needed,
    alts = pre ++ alt :: post ->
    tournament actual_types ins (length actual_types) pre 0
               (tournament_start (length actual_types)) w = Some (t, w1) ->
    length (signature alt) = length actual_types ->
    bestSequenceRoute actual_types ins (signature alt) = Some needed ->
    compareAlternatives (lightweight t) needed ins = Some OL_EQUIVALENT \/
    compareAlternatives (lightweight t) needed ins = Some OL_AMBIGUOUS ->
    (exists champion, lightest t = Some champion) /\
    examine actual_types ins (length actual_types) (length pre) alt t <> None.
Proof.
  intros Hi Hposs. split.
  - destruct (tournament_defined WL _ _ Hi Hposs alts [] _ w
                                 (champion_inv_start _ _ _)) as (t' & w' & E).
    simpl in E. rewrite E. discriminate.
  - intros pre alt post t w1 needed -> Hpre Hsig Hb Hc.
    pose proof (tournament_inv _ _ Hi pre [] _ _ _ _ (champion_inv_start _ _ _) Hpre)
      as Hinv.
    simpl in Hinv. split.
    + destruct (lightest t) as [champion|] eqn:Hl; [eauto|]. exfalso.
      pose proof (first_comparison_better WL _ _ _ _ _ _ Hi Hinv Hl Hsig Hb
                                          (Hposs _ _ Hb)) as Hc'.
      destruct Hc; congruence.
    + destruct (examine_defined WL _ _ _ (length pre) alt _ Hi Hposs Hinv Hsig)
        as [t1 He].
      rewrite He. discriminate.
Qed.

(** *** Reading traces *)

Lemma flat_map_map_nil {A B C} (f : B -> list C) (g : A -> B) l :
  (forall x, f (g x) = []) -> flat_map f (map g l) = [].
Proof. intros H. induction l; simpl; [|rewrite H]; auto. Qed.

Lemma flat_map_map_one {A B} (f : B -> list A) (g : A -> B) l :
  (forall x, f (g x) = [x]) -> flat_map f (map g l) = l.
Proof. intros H. induction l; simpl; [|rewrite H; simpl; f_equal]; auto. Qed.

Lemma fingerprint_silent {C} (f : event -> list C) args :
  (forall v, f (DetectType v) = []) -> (forall v, f (DetectInsight v) = []) ->
  flat_map f (fingerprint_events args) = [].
Proof.
  intros H1 H2. unfold fingerprint_events.
  induction args; simpl; [|rewrite H1, H2]; auto.
Qed.

Ltac read_trace :=
  unfold invoked, queried, trashed, sink_released, table_queries;
  repeat progress
    (repeat rewrite flat_map_app;
     repeat first
       [ rewrite fingerprint_silent by reflexivity
       | rewrite flat_map_map_nil by reflexivity
       | rewrite flat_map_map_one by reflexivity ];
     simpl);
  rewrite ?app_nil_r.

(** *** Conversion of the actuals and the native call *)

Lemma convert_each_trace original :
  forall conversions gc w converted gc' w',
    convert_each original conversions gc w = Some (converted, gc', w') ->
    exists ts, gc' = gc ++ ts /\ w' = log (map Trash ts) w.
Proof.
  induction original as [|v original IH]; intros conversions gc w converted gc' w' H.
  - simpl in H. injection H as <- <- <-. exists []. now rewrite app_nil_r, log_nil.
  - simpl in H. destruct conversions as [|[route|] conversions]; try discriminate.
    destruct (route_apply route v) as [v' ts] eqn:Ea. unfold trash in H.
    destruct (convert_each original conversions (gc ++ ts) (log (map Trash ts) w))
      as [[[c g] w1]|] eqn:E; [|discriminate].
    injection H as <- <- <-.
    destruct (IH _ _ _ _ _ _ E) as (ts' & -> & ->).
    exists (ts ++ ts'). now rewrite app_assoc, log_log, map_app.
Qed.

Lemma convert_each_routes original :
  forall needed gc w,
    length needed = length original ->
    convert_each original (map Some needed) gc w =
    Some (converted_by needed original,
          gc ++ transients_by needed original,
          log (map Trash (transients_by needed original)) w).
Proof.
  induction original as [|v original IH]; intros [|route needed] gc w H;
    simpl in *; try discriminate.
  - now rewrite app_nil_r, log_nil.
  - destruct (route_apply route v) as [v' ts] eqn:Ea. unfold trash.
    rewrite IH by lia. simpl. now rewrite app_assoc, log_log, map_app.
Qed.

Lemma convertSequence_routes original needed gc w :
  length needed = length original ->
  convertSequence original (map Some needed) gc w =
  Some (converted_by needed original,
        gc ++ transients_by needed original,
        log (map Trash (transients_by needed original)) w).
Proof.
  intros H. unfold convertSequence.
  rewrite length_map, H, Nat.eqb_refl. simpl. now apply convert_each_routes.
Qed.

Lemma convertSequence_defined_length original conversions gc w r :
  convertSequence original conversions gc w = Some r ->
  length conversions = length original.
Proof.
  unfold convertSequence.
  destruct (length original =? length conversions) eqn:E; simpl; [|discriminate].
  apply Nat.eqb_eq in E. auto.
Qed.

(** What [dispatch] does once the routes fit the actuals: it trashes the
    transients, invokes the candidate on the converted values, possibly
    releases the raw result to an edge conversion, and the sink releases
    the transients; the cache is left alone. *)
Lemma dispatch_spec m needed args w :
  length needed = length args ->
  exists o edge,
    dispatch m needed args w =
    (o, log (map Trash (transients_by needed args)
             ++ [Invoke m (converted_by needed args)]
             ++ edge ++ map SinkRelease (transients_by needed args)) w) /\
    (edge = [] \/ exists v, edge = [MemoryRelease v]) /\
    ((exists r, o = Returned r) \/ (exists z, o = Thrown (NativeException z))).
Proof.
  intros H. unfold dispatch. rewrite convertSequence_routes by assumption.
  simpl app.
  destruct (CFunction_call m (converted_by needed args)) as [result|raised].
  - unfold applyEdgeConversions.
    destruct (getEdgeConversion (returnType m)) as [exit|].
    + exists (Returned (exit result)), [MemoryRelease result].
      unfold leave_scope, cleanUp. simpl snd. rewrite !log_log.
      rewrite <- ?app_assoc, ?app_nil_r. simpl.
      split; [reflexivity|]. split; [right|left]; eauto.
    + exists (Returned result), [].
      unfold leave_scope, cleanUp. simpl snd. rewrite !log_log.
      rewrite <- ?app_assoc, ?app_nil_r. simpl.
      split; [reflexivity|]. split; [left|left]; eauto.
  - exists (Thrown (NativeException raised)), [].
    unfold leave_scope, cleanUp. simpl snd. rewrite !log_log.
    rewrite <- ?app_assoc, ?app_nil_r. simpl.
    split; [reflexivity|]. split; [left|right]; eauto.
Qed.

(** *** The branches of [call] *)

Lemma call_over_limit s args w :
  ARGUMENT_ARRAY_LIMIT < length args ->
  call s args w = (Thrown ArgumentArrayLimitExceededException, w).
Proof.
  intros H. unfold call, call_body.
  rewrite (proj2 (Nat.ltb_lt _ _) H).
  unfold leave_scope, cleanUp. simpl. now rewrite log_nil.
Qed.

Lemma call_hit s args w m needed :
  length args <= ARGUMENT_ARRAY_LIMIT ->
  let v := Cache.recall (cache w) (this s) (length args)
                        (map detectType args) (map detectInsight args) in
  v <> Cache.MISSED ->
  nth_error (m_alternatives s) (Z.to_nat v) = Some m ->
  bestSequenceRoute (map detectType args) (map detectInsight args) (signature m)
  = Some needed ->
  call s args w =
  dispatch m needed args
           (log (fingerprint_events args ++ [BestSequenceRoute (signature m)]) w).
Proof.
  intros Hlim v Hne Hnth Hb. unfold call, call_body. cbv zeta.
  rewrite (proj2 (Nat.ltb_ge _ _) Hlim). simpl cache. fold v.
  rewrite (proj2 (Z.eqb_neq _ _) Hne). simpl negb. cbv iota.
  rewrite Hnth, Hb, log_log. unfold dispatch.
  destruct (convertSequence args (map Some needed) []
              (log (fingerprint_events args ++ [BestSequenceRoute (signature m)]) w))
    as [[[conv gc] w1]|]; [|reflexivity].
  unfold invoke_match.
  destruct (CFunction_call m conv) as [result|raised]; [|reflexivity].
  destruct (applyEdgeConversions (returnType m) result (log [Invoke m conv] w1)).
  reflexivity.
Qed.

Lemma tournament_in_call args alts w :
  tournament (map detectType args) (map detectInsight args) (length args) alts 0
             (tournament_start (length args)) w =
  match resolve (map detectType args) (map detectInsight args) alts with
  | Some t => Some (t, log (table_queries (length args) alts) w)
  | None => None
  end.
Proof.
  pose proof (tournament_resolve (map detectType args) (map detectInsight args)
                                 alts w) as H.
  rewrite length_map in H. exact H.
Qed.

Lemma call_miss_nomatch s args w t :
  length args <= ARGUMENT_ARRAY_LIMIT ->
  Cache.recall (cache w) (this s) (length args)
               (map detectType args) (map detectInsight args) = Cache.MISSED ->
  resolve (map detectType args) (map detectInsight args) (m_alternatives s) = Some t ->
  conversionPossible (lightweight t) = false \/ lightest t = None ->
  call s args w =
  (Thrown OverloadingNoMatchException,
   log (fingerprint_events args ++ table_queries (length args) (m_alternatives s)) w).
Proof.
  intros Hlim Hv Hr Hbad. unfold call, call_body. cbv zeta.
  rewrite (proj2 (Nat.ltb_ge _ _) Hlim). simpl cache. rewrite Hv.
  rewrite Z.eqb_refl. simpl negb. cbv iota.
  rewrite tournament_in_call, Hr.
  assert (Hv' : negb (conversionPossible (lightweight t))
                || match lightest t with None => true | Some _ => false end = true).
  { destruct Hbad as [-> | ->]; [reflexivity|]. apply orb_true_r. }
  rewrite Hv'. unfold leave_scope, cleanUp. simpl. now rewrite log_nil, log_log.
Qed.

Lemma call_miss_ambiguous s args w t m :
  length args <= ARGUMENT_ARRAY_LIMIT ->
  Cache.recall (cache w) (this s) (length args)
               (map detectType args) (map detectInsight args) = Cache.MISSED ->
  resolve (map detectType args) (map detectInsight args) (m_alternatives s) = Some t ->
  conversionPossible (lightweight t) = true ->
  lightest t = Some m ->
  ambiguity_alert t = true ->
  call s args w =
  (Thrown OverloadingAmbiguityException,
   log (fingerprint_events args ++ table_queries (length args) (m_alternatives s)) w).
Proof.
  intros Hlim Hv Hr Hp Hl Ha. unfold call, call_body. cbv zeta.
  rewrite (proj2 (Nat.ltb_ge _ _) Hlim). simpl cache. rewrite Hv.
  rewrite Z.eqb_refl. simpl negb. cbv iota.
  rewrite tournament_in_call, Hr, Hp, Hl, Ha. simpl.
  unfold leave_scope, cleanUp. simpl. now rewrite log_nil, log_log.
Qed.

Lemma call_miss_selected s args w t m needed :
  length args <= ARGUMENT_ARRAY_LIMIT ->
  Cache.recall (cache w) (this s) (length args)
               (map detectType args) (map detectInsight args) = Cache.MISSED ->
  resolve (map detectType args) (map detectInsight args) (m_alternatives s) = Some t ->
  conversionPossible (lightweight t) = true ->
  lightest t = Some m ->
  ambiguity_alert t = false ->
  lightroutes t = map Some needed ->
  call s args w =
  dispatch m needed args
           {| cache := Cache.remember (cache w) (this s) (length args)
                         (map detectType args) (map detectInsight args)
                         (cached_alt t);
              trace := trace w ++ fingerprint_events args
                       ++ table_queries (length args) (m_alternatives s) |}.
Proof.
  intros Hlim Hv Hr Hp Hl Ha Hroutes. unfold call, call_body. cbv zeta.
  rewrite (proj2 (Nat.ltb_ge _ _) Hlim). simpl cache. rewrite Hv.
  rewrite Z.eqb_refl. simpl negb. cbv iota.
  rewrite tournament_in_call, Hr, Hp, Hl, Ha, Hroutes. simpl negb. simpl orb.
  cbv iota. simpl cache. simpl trace. rewrite <- app_assoc. unfold dispatch.
  match goal with
  | |- context [convertSequence args (map Some needed) [] ?w0] =>
      destruct (convertSequence args (map Some needed) [] w0)
        as [[[conv gc] w1]|]
  end; [|reflexivity].
  unfold invoke_match.
  destruct (CFunction_call m conv) as [result|raised]; [|reflexivity].
  destruct (applyEdgeConversions (returnType m) result (log [Invoke m conv] w1)).
  reflexivity.
Qed.

(** C4. With more than twelve actuals, [call] raises
    [ArgumentArrayLimitExceededException] and has done nothing else by
    then: the cache and the trace are as before, so neither [detectType]
    nor [detectInsight] has been called on any argument. *)
Theorem arity_gate_first s args w :
  ARGUMENT_ARRAY_LIMIT < length args ->
  call s args w = (Thrown ArgumentArrayLimitExceededException, w) /\
  forall evs, trace (snd (call s args w)) = trace w ++ evs ->
              frontend_seen evs = [].
Proof.
  intros H. rewrite (call_over_limit s args w H). split; [reflexivity|].
  simpl. intros evs Hevs.
  assert (evs = []) as ->; [|reflexivity].
  apply (app_inv_head (trace w)). now rewrite app_nil_r.
Qed.

(** *** The cache *)

Lemma same_entries_refl n :
  forall a i, length a = n -> length i = n -> Cache.same_entries n a i a i = true.
Proof.
  induction n as [|n IH]; intros [|x a] [|p i] Ha Hi; simpl in *;
    try discriminate; auto.
  rewrite !Z.eqb_refl. simpl. apply IH; lia.
Qed.

Lemma same_entries_eq n :
  forall a1 i1 a2 i2,
    length a1 = n -> length i1 = n -> length a2 = n -> length i2 = n ->
    Cache.same_entries n a1 i1 a2 i2 = true -> a1 = a2 /\ i1 = i2.
Proof.
  induction n as [|n IH]; intros [|x1 a1] [|p1 i1] [|x2 a2] [|p2 i2] H1 H2 H3 H4 H;
    simpl in *; try discriminate; auto.
  destruct (x1 =? x2)%Z eqn:Ex; simpl in H; [|discriminate].
  destruct (p1 =? p2)%Z eqn:Ep; simpl in H; [|discriminate].
  apply Z.eqb_eq in Ex, Ep. subst.
  destruct (IH a1 i1 a2 i2) as [-> ->]; auto.
Qed.

Lemma recall_remember c me n a i v me' n' a' i' :
  Cache.recall (Cache.remember c me n a i v) me' n' a' i' =
  if Cache.KeyIdentityFunctor
       {| Cache.group := me; Cache.nargs := n;
          Cache.args := firstn n a; Cache.insights := firstn n i |}
       {| Cache.group := me'; Cache.nargs := n'; Cache.args := a';
          Cache.insights := i' |}
  then v else Cache.recall c me' n' a' i'.
Proof. reflexivity. Qed.

Lemma recall_remember_same c me a i v :
  length i = length a ->
  Cache.recall (Cache.remember c me (length a) a i v) me (length a) a i = v.
Proof.
  intros H. rewrite recall_remember.
  assert (Hfi : firstn (length a) i = i) by (rewrite <- H; apply firstn_all).
  rewrite Hfi, firstn_all. unfold Cache.KeyIdentityFunctor. simpl.
  rewrite Z.eqb_refl, Nat.eqb_refl. simpl.
  now rewrite same_entries_refl.
Qed.

Lemma key_identity_eq me n a i me' a' i' :
  length a = n -> length i = n -> length i' = length a' ->
  Cache.KeyIdentityFunctor
    {| Cache.group := me; Cache.nargs := n;
       Cache.args := firstn n a; Cache.insights := firstn n i |}
    {| Cache.group := me'; Cache.nargs := length a'; Cache.args := a';
       Cache.insights := i' |} = true ->
  me = me' /\ a = a' /\ i = i'.
Proof.
  intros Ha Hi Hi' H. unfold Cache.KeyIdentityFunctor in H. simpl in H.
  destruct (me =? me')%Z eqn:Em; simpl in H; [|discriminate].
  destruct (n =? length a') eqn:En; simpl in H; [|discriminate].
  apply Z.eqb_eq in Em. apply Nat.eqb_eq in En.
  assert (Hfa : firstn n a = a) by (rewrite <- Ha; apply firstn_all).
  assert (Hfi : firstn n i = i) by (rewrite <- Hi; apply firstn_all).
  rewrite Hfa, Hfi in H.
  destruct (same_entries_eq n a i a' i') as [-> ->]; auto; congruence.
Qed.

Lemma cache_sound_empty s : cache_sound s [].
Proof. intros actual_types ins _ H. now elim H. Qed.

Lemma cache_sound_flushed s w : cache_sound s (cache (forceRecompute w)).
Proof. apply cache_sound_empty. Qed.

(** Installing the winner of a resolution keeps a cache sound, for the
    resolving set and for any set at another address. *)
Lemma cache_sound_remember s s2 c a i v :
  length i = length a ->
  (this s2 = this s -> s2 = s) ->
  winner s2 a i = Some v ->
  cache_sound s c ->
  cache_sound s (Cache.remember c (this s2) (length a) a i v).
Proof.
  intros Hi Hsame Hwin Hc a' i' Hi'. rewrite recall_remember.
  destruct (Cache.KeyIdentityFunctor _ _) eqn:Ek.
  - intros _. apply key_identity_eq in Ek; auto.
    destruct Ek as (Hme & <- & <-). rewrite <- (Hsame Hme). exact Hwin.
  - apply Hc. exact Hi'.
Qed.

(** *** Effects of the body of [call] *)

Lemma invoke_match_effects match_ conv gc w o gc' w' :
  invoke_match match_ conv gc w = (o, gc', w') ->
  o <> Undefined /\
  exists evs, w' = log evs w /\ trashed evs = [] /\
              gc = sink_released evs ++ gc'.
Proof.
  unfold invoke_match. intros H. destruct match_ as [m|].
  - destruct (CFunction_call m conv) as [result|raised].
    + unfold applyEdgeConversions, cleanUp in H.
      destruct (getEdgeConversion (returnType m)) as [exit|];
        injection H as <- <- <-; (split; [discriminate|]); rewrite !log_log;
        eexists; (split; [reflexivity|]); read_trace; auto.
    + injection H as <- <- <-. split; [discriminate|].
      exists [Invoke m conv]. auto.
  - injection H as <- <- <-. split; [discriminate|].
    exists []. now rewrite log_nil.
Qed.

Lemma convertSequence_effects original conversions gc w conv gc' w' :
  convertSequence original conversions gc w = Some (conv, gc', w') ->
  exists ts, gc' = gc ++ ts /\ w' = log (map Trash ts) w.
Proof.
  unfold convertSequence.
  destruct (negb (length original =? length conversions)); [discriminate|].
  apply convert_each_trace.
Qed.

(** Whatever way the body leaves, the trace only grows; what has been
    trashed and not yet released is still in the sink; and the cache is
    either untouched or extended with the winner of a resolution. *)
Lemma call_body_effects s args w o gc w' :
  call_body s args w = (o, gc, w') ->
  exists evs,
    trace w' = trace w ++ evs /\
    (o <> Undefined -> trashed evs = sink_released evs ++ gc) /\
    (cache w' = cache w \/
     exists v,
       winner s (map detectType args) (map detectInsight args) = Some v /\
       cache w' = Cache.remember (cache w) (this s) (length args)
                    (map detectType args) (map detectInsight args) v).
Proof.
  intros H. unfold call_body in H. cbv zeta in H.
  destruct (ARGUMENT_ARRAY_LIMIT <? length args).
  { injection H as <- <- <-. exists []. rewrite app_nil_r. auto. }
  simpl cache in H.
  destruct (negb (Cache.recall (cache w) (this s) (length args)
                    (map detectType args) (map detectInsight args)
                  =? Cache.MISSED)%Z).
  - destruct (nth_error (m_alternatives s) _) as [m|].
    2:{ injection H as <- <- <-. eexists. split; [reflexivity|].
        split; [congruence|auto]. }
    destruct (bestSequenceRoute _ _ (signature m)) as [needed|].
    2:{ injection H as <- <- <-. rewrite log_log. eexists.
        split; [reflexivity|]. split; [|auto]. intros _. now read_trace. }
    destruct (convertSequence args (map Some needed) [] _)
      as [[[conv gc1] w1]|] eqn:Hc.
    2:{ injection H as <- <- <-. rewrite log_log. eexists.
        split; [reflexivity|]. split; [congruence|auto]. }
    apply convertSequence_effects in Hc. destruct Hc as (ts & -> & ->).
    apply invoke_match_effects in H.
    destruct H as (Ho & evs2 & -> & Ht & Hg). rewrite !log_log.
    eexists. split; [reflexivity|]. split; [|auto]. intros _.
    unfold trashed, sink_released in *. read_trace. simpl in Hg.
    rewrite Ht. simpl. now rewrite app_nil_r.
  - rewrite tournament_in_call in H.
    destruct (resolve (map detectType args) (map detectInsight args)
                      (m_alternatives s)) as [t|] eqn:Hr.
    2:{ injection H as <- <- <-. eexists. split; [reflexivity|].
        split; [congruence|auto]. }
    destruct (negb (conversionPossible (lightweight t))
              || match lightest t with None => true | Some _ => false end)
             eqn:Hverdict.
    { injection H as <- <- <-. rewrite log_log. eexists.
      split; [reflexivity|]. split; [|auto]. intros _. now read_trace. }
    destruct (ambiguity_alert t) eqn:Ha.
    { injection H as <- <- <-. rewrite log_log. eexists.
      split; [reflexivity|]. split; [|auto]. intros _. now read_trace. }
    assert (Hwin : winner s (map detectType args) (map detectInsight args)
                   = Some (cached_alt t)).
    { unfold winner. now rewrite Hr, Hverdict, Ha. }
    destruct (convertSequence args (lightroutes t) [] _)
      as [[[conv gc1] w1]|] eqn:Hc.
    2:{ injection H as <- <- <-. simpl. rewrite <- app_assoc. eexists.
        split; [reflexivity|]. split; [congruence|]. right. eauto. }
    apply convertSequence_effects in Hc. destruct Hc as (ts & -> & ->).
    apply invoke_match_effects in H.
    destruct H as (Ho & evs2 & -> & Ht & Hg). simpl. rewrite <- !app_assoc.
    eexists. split; [reflexivity|]. split; [|right; eauto]. intros _.
    unfold trashed, sink_released in *. read_trace. simpl in Hg.
    rewrite Ht. simpl. now rewrite app_nil_r.
Qed.

Lemma call_effects s args w :
  exists evs,
    trace (snd (call s args w)) = trace w ++ evs /\
    (fst (call s args w) <> Undefined -> sink_released evs = trashed evs) /\
    (cache (snd (call s args w)) = cache w \/
     exists v,
       winner s (map detectType args) (map detectInsight args) = Some v /\
       cache (snd (call s args w)) =
       Cache.remember (cache w) (this s) (length args)
                      (map detectType args) (map detectInsight args) v).
Proof.
  unfold call.
  destruct (call_body s args w) as [[o gc] w'] eqn:Hb.
  destruct (call_body_effects _ _ _ _ _ _ Hb) as (evs & Htr & Hgc & Hcache).
  destruct o as [r|e|].
  - exists (evs ++ map SinkRelease gc). simpl. rewrite Htr, app_assoc.
    split; [reflexivity|]. split; [|exact Hcache]. intros _.
    unfold trashed, sink_released in *. read_trace.
    now rewrite Hgc by discriminate.
  - exists (evs ++ map SinkRelease gc). simpl. rewrite Htr, app_assoc.
    split; [reflexivity|]. split; [|exact Hcache]. intros _.
    unfold trashed, sink_released in *. read_trace.
    now rewrite Hgc by discriminate.
  - exists evs. simpl. split; [exact Htr|]. split; [congruence|exact Hcache].
Qed.

(** A call keeps the cache sound for its own set and for every set at
    another address. *)
Lemma call_preserves_sound s s2 args w :
  (this s2 = this s -> s2 = s) ->
  cache_sound s (cache w) ->
  cache_sound s (cache (snd (call s2 args w))).
Proof.
  intros Hsame Hc.
  destruct (call_effects s2 args w) as (evs & _ & _ & [-> | (v & Hwin & ->)]).
  - exact Hc.
  - rewrite <- (length_map detectType args).
    apply cache_sound_remember; auto. now rewrite !length_map.
Qed.

(** Soundness is an invariant of histories: from a sound cache (the empty
    one, or the cache after [forceRecompute]), any sequence of calls on sets
    that do not share an address with a different set leaves the cache
    sound. *)
Lemma run_preserves_sound s calls :
  (forall s2 args, In (s2, args) calls -> this s2 = this s -> s2 = s) ->
  forall w, cache_sound s (cache w) -> cache_sound s (cache (run calls w)).
Proof.
  induction calls as [|[s2 args] calls IH]; intros Hsame w Hc; simpl; [exact Hc|].
  apply IH.
  - intros s3 args3 Hin. apply (Hsame s3 args3). now right.
  - apply call_preserves_sound; [|exact Hc].
    apply (Hsame s2 args). now left.
Qed.

(** C3. On every path by which [call] leaves -- a result, one of the
    exceptions of the selection, or an exception of the native callable --
    the values handed to the sink during the call are exactly the values the
    sink has released by then, each occurrence once. *)
Theorem sink_released_once s args w :
  fst (call s args w) <> Undefined ->
  exists evs,
    trace (snd (call s args w)) = trace w ++ evs /\
    sink_released evs = trashed evs.
Proof.
  intros Ho. destruct (call_effects s args w) as (evs & Htr & Hgc & _).
  exists evs. auto.
Qed.

(** *** Calls on a sound cache *)

Lemma sound_hit_is_winner s args w t :
  cache_sound s (cache w) ->
  resolve (map detectType args) (map detectInsight args) (m_alternatives s) = Some t ->
  let v := Cache.recall (cache w) (this s) (length args)
                        (map detectType args) (map detectInsight args) in
  v <> Cache.MISSED ->
  conversionPossible (lightweight t) = true /\
  (exists m, lightest t = Some m) /\
  ambiguity_alert t = false /\
  cached_alt t = v.
Proof.
  intros Hc Hr v Hv.
  pose proof (Hc (map detectType args) (map detectInsight args)) as Hs.
  rewrite !length_map in Hs. specialize (Hs eq_refl Hv). fold v in Hs.
  unfold winner in Hs. rewrite Hr in Hs.
  destruct (conversionPossible (lightweight t)); simpl in Hs; [|discriminate].
  destruct (lightest t) as [m|]; [|discriminate].
  destruct (ambiguity_alert t); [discriminate|].
  injection Hs as Hs. eauto.
Qed.

Lemma call_rejects_nomatch s args w t :
  length args <= ARGUMENT_ARRAY_LIMIT ->
  cache_sound s (cache w) ->
  resolve (map detectType args) (map detectInsight args) (m_alternatives s) = Some t ->
  conversionPossible (lightweight t) = false \/ lightest t = None ->
  fst (call s args w) = Thrown OverloadingNoMatchException.
Proof.
  intros Hlim Hc Hr Hbad.
  destruct (Z.eq_dec (Cache.recall (cache w) (this s) (length args)
                        (map detectType args) (map detectInsight args))
                     Cache.MISSED) as [Hv|Hv].
  - now rewrite (call_miss_nomatch _ _ _ _ Hlim Hv Hr Hbad).
  - exfalso.
    destruct (sound_hit_is_winner _ _ _ _ Hc Hr Hv) as (Hp & (m & Hl) & _).
    destruct Hbad; congruence.
Qed.

Lemma call_rejects_ambiguous s args w t m :
  length args <= ARGUMENT_ARRAY_LIMIT ->
  cache_sound s (cache w) ->
  resolve (map detectType args) (map detectInsight args) (m_alternatives s) = Some t ->
  conversionPossible (lightweight t) = true ->
  lightest t = Some m ->
  ambiguity_alert t = true ->
  fst (call s args w) = Thrown OverloadingAmbiguityException.
Proof.
  intros Hlim Hc Hr Hp Hl Ha.
  destruct (Z.eq_dec (Cache.recall (cache w) (this s) (length args)
                        (map detectType args) (map detectInsight args))
                     Cache.MISSED) as [Hv|Hv].
  - now rewrite (call_miss_ambiguous _ _ _ _ _ Hlim Hv Hr Hp Hl Ha).
  - exfalso.
    destruct (sound_hit_is_winner _ _ _ _ Hc Hr Hv) as (_ & _ & Ha' & _).
    congruence.
Qed.

(** When the tournament has a clear winner [m], a call on a sound cache
    invokes [m] and nothing else, whether the cache is hit or missed; it
    ends with the native result or with the native exception. *)
Lemma call_selects s args w t m :
  length args <= ARGUMENT_ARRAY_LIMIT ->
  cache_sound s (cache w) ->
  resolve (map detectType args) (map detectInsight args) (m_alternatives s) = Some t ->
  conversionPossible (lightweight t) = true ->
  lightest t = Some m ->
  ambiguity_alert t = false ->
  exists evs,
    trace (snd (call s args w)) = trace w ++ evs /\
    invoked evs = [m] /\
    ((exists r, fst (call s args w) = Returned r) \/
     (exists z, fst (call s args w) = Thrown (NativeException z))).
Proof.
  intros Hlim Hc Hr Hp Hl Ha.
  assert (Hi : length (map detectInsight args) = length (map detectType args))
    by now rewrite !length_map.
  pose proof (resolve_inv _ _ _ _ Hi Hr) as (_ & _ & Hm). rewrite Hl in Hm.
  destruct Hm as (index & needed & Hidx & Hnth & Hsig & Hb & Hroutes & _).
  pose proof (bestSequenceRoute_length _ _ _ _ Hi Hsig Hb) as Hn.
  rewrite length_map in Hn.
  destruct (Z.eq_dec (Cache.recall (cache w) (this s) (length args)
                        (map detectType args) (map detectInsight args))
                     Cache.MISSED) as [Hv|Hv].
  - rewrite (call_miss_selected _ _ _ _ _ _ Hlim Hv Hr Hp Hl Ha Hroutes).
    destruct (dispatch_spec m needed args
                {| cache := Cache.remember (cache w) (this s) (length args)
                              (map detectType args) (map detectInsight args)
                              (cached_alt t);
                   trace := trace w ++ fingerprint_events args
                            ++ table_queries (length args) (m_alternatives s) |} Hn)
      as (o & edge & -> & Hedge & Ho).
    simpl. rewrite <- !app_assoc. eexists. split; [reflexivity|].
    split; [|exact Ho].
    destruct Hedge as [-> | (v & ->)]; now read_trace.
  - destruct (sound_hit_is_winner _ _ _ _ Hc Hr Hv) as (_ & _ & _ & Hcached).
    assert (Hnth' : nth_error (m_alternatives s)
                      (Z.to_nat (Cache.recall (cache w) (this s) (length args)
                                   (map detectType args) (map detectInsight args)))
                    = Some m).
    { rewrite <- Hcached, Hidx, Nat2Z.id. exact Hnth. }
    rewrite (call_hit _ _ _ _ _ Hlim Hv Hnth' Hb).
    destruct (dispatch_spec m needed args
                (log (fingerprint_events args ++ [BestSequenceRoute (signature m)]) w)
                Hn)
      as (o & edge & -> & Hedge & Ho).
    simpl. rewrite <- !app_assoc. eexists. split; [reflexivity|].
    split; [|exact Ho].
    destruct Hedge as [-> | (v & ->)]; now read_trace.
Qed.

(** C7. A set without candidates: with at most twelve actuals and a sound
    cache, [call] raises [OverloadingNoMatchException]; the tournament looks
    at no candidate and ends without a champion. *)
Theorem empty_set_no_match s args w :
  m_alternatives s = [] ->
  length args <= ARGUMENT_ARRAY_LIMIT ->
  cache_sound s (cache w) ->
  fst (call s args w) = Thrown OverloadingNoMatchException /\
  (exists t, resolve (map detectType args) (map detectInsight args)
                     (m_alternatives s) = Some t /\ lightest t = None) /\
  forall evs, trace (snd (call s args w)) = trace w ++ evs -> queried evs = [].
Proof.
  intros Hempty Hlim Hc.
  assert (Hr : resolve (map detectType args) (map detectInsight args)
                       (m_alternatives s)
               = Some (tournament_start (length (map detectType args))))
    by (rewrite Hempty; reflexivity).
  split; [|split].
  - eapply call_rejects_nomatch; eauto.
  - eexists. split; [exact Hr|reflexivity].
  - assert (Hv : Cache.recall (cache w) (this s) (length args)
                   (map detectType args) (map detectInsight args) = Cache.MISSED).
    { destruct (Z.eq_dec (Cache.recall (cache w) (this s) (length args)
                            (map detectType args) (map detectInsight args))
                         Cache.MISSED) as [Hv|Hv]; [exact Hv|exfalso].
      destruct (sound_hit_is_winner _ _ _ _ Hc Hr Hv) as (_ & (m & Hl) & _).
      discriminate Hl. }
    rewrite (call_miss_nomatch _ _ _ _ Hlim Hv Hr (or_intror eq_refl)).
    rewrite Hempty. simpl. intros evs Hevs. apply app_inv_head in Hevs.
    subst evs. now read_trace.
Qed.

(** *** Calls without arguments *)

Lemma examine_nullary index alt t :
  signature alt = [] ->
  lightweight t = [] ->
  examine [] [] 0 index alt t =
  Some {| ambiguity_alert := false;
          lightest := Some alt;
          cached_alt := Z.of_nat index;
          lightroutes := lightroutes t;
          lightweight := [] |}.
Proof. intros Hs Hw. unfold examine. rewrite Hs, Hw. reflexivity. Qed.

Lemma nullary_tournament t index :
  lightweight t = [] ->
  forall alts w,
  exists t' w',
    tournament [] [] 0 alts index t w = Some (t', w') /\
    lightweight t' = [] /\
    (filter (fun alt => length (signature alt) =? 0) alts = [] -> t' = t) /\
    (forall rest c,
        filter (fun alt => length (signature alt) =? 0) alts = rest ++ [c] ->
        lightest t' = Some c /\ ambiguity_alert t' = false).
Proof.
  intros Hw. induction alts as [|alt alts IH] using rev_ind; intros w.
  - exists t, w. simpl. split; [reflexivity|]. split; [exact Hw|].
    split; [reflexivity|]. intros rest c H. destruct rest; discriminate.
  - destruct (IH w) as (t1 & w1 & E & Hw1 & Hnone & Hlast).
    rewrite tournament_app, E, filter_app. simpl.
    destruct (length (signature alt) =? 0) eqn:Ha.
    + apply Nat.eqb_eq, length_zero_iff_nil in Ha.
      rewrite (examine_nullary _ _ _ Ha Hw1).
      eexists; eexists. split; [reflexivity|]. simpl. split; [reflexivity|]. split.
      * intros H. destruct (filter _ alts); discriminate.
      * intros rest c H. apply app_inj_tail in H. destruct H as [_ <-]. auto.
    + exists t1, w1. rewrite app_nil_r. auto.
Qed.

(** C9. A call without arguments on a set with arity-zero candidates:
    each of them compares BETTER against whatever champion weights stand,
    the tournament ends with the last-registered of them as champion and
    the ambiguity flag down, and [call] invokes that one and ends with its
    result or its exception; it never raises
    [OverloadingAmbiguityException]. *)
Theorem nullary_last_wins s w rest c :
  filter (fun alt => length (signature alt) =? 0) (m_alternatives s) = rest ++ [c] ->
  cache_sound s (cache w) ->
  (forall alt known,
      In alt (rest ++ [c]) -> length known = 0 ->
      exists needed,
        bestSequenceRoute [] [] (signature alt) = Some needed /\
        compareAlternatives known needed [] = Some OL_BETTER) /\
  (exists t, resolve [] [] (m_alternatives s) = Some t /\
             lightest t = Some c /\ ambiguity_alert t = false) /\
  (exists evs, trace (snd (call s [] w)) = trace w ++ evs /\ invoked evs = [c]) /\
  ((exists r, fst (call s [] w) = Returned r) \/
   (exists z, fst (call s [] w) = Thrown (NativeException z))) /\
  fst (call s [] w) <> Thrown OverloadingAmbiguityException.
Proof.
  intros Hf Hc.
  destruct (nullary_tournament (tournament_start 0) 0 eq_refl (m_alternatives s) blank)
    as (t & w' & E & Hw & _ & Hlast).
  destruct (Hlast _ _ Hf) as [Hl Ha].
  assert (Hr : resolve [] [] (m_alternatives s) = Some t)
    by (unfold resolve; simpl length; now rewrite E).
  assert (Hp : conversionPossible (lightweight t) = true) by now rewrite Hw.
  destruct (call_selects s [] w t c (Nat.le_0_l _) Hc Hr Hp Hl Ha)
    as (evs & Htr & Hinv & Ho).
  split; [|split; [|split; [|split]]].
  - intros alt known Hin Hk. rewrite <- Hf in Hin. apply filter_In in Hin.
    destruct Hin as [_ Hsig]. apply Nat.eqb_eq, length_zero_iff_nil in Hsig.
    apply length_zero_iff_nil in Hk. subst known. rewrite Hsig.
    exists []. split; reflexivity.
  - eauto.
  - eauto.
  - exact Ho.
  - destruct Ho as [[r ->] | [z ->]]; discriminate.
Qed.

(** *** Two candidates *)

Lemma favours_swap a b : favours_known a b <-> favours_suggested b a.
Proof.
  split; intros (n & k & s & Hk & Hs & Hlt); exists n, s, k; auto.
Qed.

Lemma initial_comparison (WL : WeightLaws W) n needed ins :
  length needed = n -> length ins = n ->
  n = 0 \/ (exists s, In s (weights_of needed ins) /\ isPossible s = true) ->
  compareAlternatives (repeat INFINITE n) needed ins = Some OL_BETTER.
Proof.
  intros Hn Hi Hp. destruct n as [|n].
  - destruct needed; [reflexivity|discriminate].
  - destruct Hp as [Hp|(s & Hin & Hs)]; [discriminate|].
    destruct (compareAlternatives_cases (@wlt_asym W WL) (repeat INFINITE (S n)) needed ins)
      as (worse & better & E & Hworse & Hbetter);
      rewrite ?repeat_length; auto; [discriminate|].
    rewrite E. destruct worse.
    + exfalso. destruct (proj1 Hworse eq_refl) as (p & k & s' & Hk & _ & Hlt).
      apply nth_error_In in Hk. apply repeat_spec in Hk. subst k.
      rewrite INFINITE_max in Hlt. discriminate.
    + destruct better; [reflexivity|]. exfalso.
      assert (Hfs : favours_suggested (repeat INFINITE (S n)) (weights_of needed ins)).
      { destruct (In_nth_error _ _ Hin) as [p Hp].
        exists p, INFINITE, s. repeat split; auto.
        - apply nth_error_repeat.
          assert (Hlt : p < length (weights_of needed ins))
            by (apply nth_error_Some; congruence).
          rewrite weights_of_length in Hlt by congruence. lia.
        - now apply isPossible_lt. }
      apply Hbetter in Hfs. discriminate.
Qed.

Lemma possible_somewhere weights :
  weights <> [] -> conversionPossible weights = true ->
  exists s, In s weights /\ isPossible s = true.
Proof.
  intros Hne Hp. destruct weights as [|x weights]; [congruence|].
  exists x. split; [simpl; auto|].
  apply (proj1 (conversionPossible_forall _) Hp). simpl. auto.
Qed.

Lemma resolve_pair actual_types ins X Y :
  length (signature X) = length actual_types ->
  length (signature Y) = length actual_types ->
  resolve actual_types ins [X; Y] =
  match examine actual_types ins (length actual_types) 0 X
                (tournament_start (length actual_types)) with
  | Some t1 => examine actual_types ins (length actual_types) 1 Y t1
  | None => None
  end.
Proof.
  intros HX HY. unfold resolve. simpl.
  rewrite (proj2 (Nat.eqb_eq _ _) HX), (proj2 (Nat.eqb_eq _ _) HY).
  destruct (examine actual_types ins (length actual_types) 0 X _) as [t1|];
    [|reflexivity].
  destruct (examine actual_types ins (length actual_types) 1 Y t1); reflexivity.
Qed.

(** The first of two candidates, with a possible weight somewhere, becomes
    champion. *)
Lemma examine_first (WL : WeightLaws W) actual_types ins X rX :
  length ins = length actual_types ->
  length (signature X) = length actual_types ->
  bestSequenceRoute actual_types ins (signature X) = Some rX ->
  length actual_types = 0 \/
  (exists s, In s (weights_of rX ins) /\ isPossible s = true) ->
  examine actual_types ins (length actual_types) 0 X
          (tournament_start (length actual_types)) =
  Some {| ambiguity_alert := false;
          lightest := Some X;
          cached_alt := Z.of_nat 0;
          lightroutes := map Some rX;
          lightweight := weights_of rX ins |}.
Proof.
  intros Hi HX Hb Hp.
  pose proof (bestSequenceRoute_length _ _ _ _ Hi HX Hb) as Hn.
  apply examine_better; auto; simpl; rewrite ?repeat_length; auto.
  apply initial_comparison; auto.
Qed.

Lemma compare_from_witnesses (WL : WeightLaws W) known suggested ins worse better :
  length suggested = length known ->
  length ins = length known ->
  known <> [] ->
  (favours_known known (weights_of suggested ins) <-> worse = true) ->
  (favours_suggested known (weights_of suggested ins) <-> better = true) ->
  compareAlternatives known suggested ins = Some (verdict_of worse better).
Proof.
  intros Hs Hi Hne Hw Hb.
  destruct (compareAlternatives_cases (@wlt_asym W WL) known suggested ins Hs Hi Hne)
    as (w' & b' & E & Hw' & Hb').
  rewrite E. f_equal.
  assert (w' = worse) as -> by (destruct w', worse; intuition congruence).
  assert (b' = better) as -> by (destruct b', better; intuition congruence).
  reflexivity.
Qed.

Lemma same_arguments_sym a :
  forall b, length a = length b -> same_arguments a b = same_arguments b a.
Proof.
  induction a as [|x a IH]; intros [|y b] H; simpl in *; try discriminate; auto.
  rewrite Z.eqb_sym. destruct (y =? x)%Z; simpl; auto.
Qed.

Lemma identicalAlternatives_sym alt1 alt2 :
  identicalAlternatives alt1 alt2 = identicalAlternatives alt2 alt1.
Proof.
  unfold identicalAlternatives. rewrite Nat.eqb_sym.
  destruct (length (signature alt2) =? length (signature alt1)) eqn:E; simpl; auto.
  apply Nat.eqb_eq in E. now apply same_arguments_sym.
Qed.

Lemma identicalAlternatives_refl alt : identicalAlternatives alt alt = true.
Proof.
  unfold identicalAlternatives. rewrite Nat.eqb_refl. simpl.
  induction (signature alt) as [|x l IH]; simpl; auto.
  now rewrite Z.eqb_refl.
Qed.

(** C8, as amended. Two candidates of the call's arity (at most twelve)
    with routes for the actuals, where every route weight of A is
    possible, some route weight of B is possible, A is strictly lighter
    than B at some position and B is strictly lighter than A at none: on a
    sound cache [call] invokes A, and only A, whether the set was
    registered as A, B or as B, A. *)
Theorem strict_domination_wins (WL : WeightLaws W) me me' A B rA rB args w w' :
  length args <= ARGUMENT_ARRAY_LIMIT ->
  length (signature A) = length args ->
  length (signature B) = length args ->
  bestSequenceRoute (map detectType args) (map detectInsight args) (signature A)
  = Some rA ->
  bestSequenceRoute (map detectType args) (map detectInsight args) (signature B)
  = Some rB ->
  conversionPossible (weights_of rA (map detectInsight args)) = true ->
  (exists s, In s (weights_of rB (map detectInsight args)) /\ isPossible s = true) ->
  favours_suggested (weights_of rB (map detectInsight args))
                    (weights_of rA (map detectInsight args)) ->
  ~ favours_known (weights_of rB (map detectInsight args))
                  (weights_of rA (map detectInsight args)) ->
  cache_sound {| this := me; m_alternatives := [A; B] |} (cache w) ->
  cache_sound {| this := me'; m_alternatives := [B; A] |} (cache w') ->
  (exists evs,
      trace (snd (call {| this := me; m_alternatives := [A; B] |} args w))
      = trace w ++ evs /\ invoked evs = [A] /\
      ((exists r, fst (call {| this := me; m_alternatives := [A; B] |} args w)
                  = Returned r) \/
       (exists z, fst (call {| this := me; m_alternatives := [A; B] |} args w)
                  = Thrown (NativeException z)))) /\
  (exists evs,
      trace (snd (call {| this := me'; m_alternatives := [B; A] |} args w'))
      = trace w' ++ evs /\ invoked evs = [A] /\
      ((exists r, fst (call {| this := me'; m_alternatives := [B; A] |} args w')
                  = Returned r) \/
       (exists z, fst (call {| this := me'; m_alternatives := [B; A] |} args w')
                  = Thrown (NativeException z)))).
Proof.
  intros Hlim HA HB HbA HbB HpA HpB Hlighter Hnoworse Hc Hc'.
  set (actual_types := map detectType args) in *.
  set (ins := map detectInsight args) in *.
  assert (Hi : length ins = length actual_types)
    by (unfold ins, actual_types; now rewrite !length_map).
  assert (Hn : length actual_types = length args)
    by (unfold actual_types; now rewrite length_map).
  rewrite <- Hn in HA, HB.
  pose proof (bestSequenceRoute_length _ _ _ _ Hi HA HbA) as HnA.
  pose proof (bestSequenceRoute_length _ _ _ _ Hi HB HbB) as HnB.
  assert (HlA : length (weights_of rA ins) = length actual_types)
    by (rewrite weights_of_length; congruence).
  assert (HlB : length (weights_of rB ins) = length actual_types)
    by (rewrite weights_of_length; congruence).
  assert (HneA : weights_of rA ins <> []).
  { destruct Hlighter as (p & k & s & _ & Hs & _). intros E. rewrite E in Hs.
    destruct p; discriminate. }
  assert (HneB : weights_of rB ins <> []).
  { destruct Hlighter as (p & k & s & Hk & _ & _). intros E. rewrite E in Hk.
    destruct p; discriminate. }
  split.
  - assert (Hr : resolve actual_types ins [A; B] =
                 Some {| ambiguity_alert := false; lightest := Some A;
                         cached_alt := Z.of_nat 0; lightroutes := map Some rA;
                         lightweight := weights_of rA ins |}).
    { rewrite (resolve_pair _ _ _ _ HA HB).
      rewrite (examine_first WL _ _ _ _ Hi HA HbA
                             (or_intror (possible_somewhere _ HneA HpA))).
      unfold examine. rewrite HbB. simpl lightweight.
      rewrite (compare_from_witnesses WL (weights_of rA ins) rB ins true false);
        try congruence; try reflexivity.
      - rewrite favours_swap. tauto.
      - rewrite <- favours_swap. split; [tauto|discriminate]. }
    destruct (call_selects {| this := me; m_alternatives := [A; B] |} args w _ A
                           Hlim Hc Hr HpA eq_refl eq_refl) as (evs & Htr & Hinv & Ho).
    eauto.
  - assert (Hr : resolve actual_types ins [B; A] =
                 Some {| ambiguity_alert := false; lightest := Some A;
                         cached_alt := Z.of_nat 1; lightroutes := map Some rA;
                         lightweight := weights_of rA ins |}).
    { rewrite (resolve_pair _ _ _ _ HB HA).
      rewrite (examine_first WL _ _ _ _ Hi HB HbB (or_intror HpB)).
      apply examine_better; simpl; rewrite ?length_map; try congruence.
      apply (compare_from_witnesses WL (weights_of rB ins) rA ins false true);
        try congruence.
      - split; [tauto|discriminate].
      - tauto. }
    destruct (call_selects {| this := me'; m_alternatives := [B; A] |} args w' _ A
                           Hlim Hc' Hr HpA eq_refl eq_refl) as (evs & Htr & Hinv & Ho).
    eauto.
Qed.

(** C5, as amended. Two candidates of the call's arity (at most twelve)
    with routes for the actuals, all of whose route weights are possible,
    which are not [identicalAlternatives] and whose weight vectors compare
    EQUIVALENT: on a sound cache [call] raises
    [OverloadingAmbiguityException], whether the set was registered as
    A, B or as B, A. *)
Theorem equivalent_pair_ambiguous (WL : WeightLaws W) me me' A B rA rB args w w' :
  length args <= ARGUMENT_ARRAY_LIMIT ->
  length (signature A) = length args ->
  length (signature B) = length args ->
  bestSequenceRoute (map detectType args) (map detectInsight args) (signature A)
  = Some rA ->
  bestSequenceRoute (map detectType args) (map detectInsight args) (signature B)
  = Some rB ->
  conversionPossible (weights_of rA (map detectInsight args)) = true ->
  conversionPossible (weights_of rB (map detectInsight args)) = true ->
  compareAlternatives (weights_of rA (map detectInsight args)) rB
                      (map detectInsight args) = Some OL_EQUIVALENT ->
  identicalAlternatives A B = false ->
  cache_sound {| this := me; m_alternatives := [A; B] |} (cache w) ->
  cache_sound {| this := me'; m_alternatives := [B; A] |} (cache w') ->
  fst (call {| this := me; m_alternatives := [A; B] |} args w)
  = Thrown OverloadingAmbiguityException /\
  fst (call {| this := me'; m_alternatives := [B; A] |} args w')
  = Thrown OverloadingAmbiguityException.
Proof.
  intros Hlim HA HB HbA HbB HpA HpB Heq Hdiff Hc Hc'.
  set (actual_types := map detectType args) in *.
  set (ins := map detectInsight args) in *.
  assert (Hi : length ins = length actual_types)
    by (unfold ins, actual_types; now rewrite !length_map).
  assert (Hn : length actual_types = length args)
    by (unfold actual_types; now rewrite length_map).
  rewrite <- Hn in HA, HB.
  pose proof (bestSequenceRoute_length _ _ _ _ Hi HA HbA) as HnA.
  pose proof (bestSequenceRoute_length _ _ _ _ Hi HB HbB) as HnB.
  assert (HlA : length (weights_of rA ins) = length actual_types)
    by (rewrite weights_of_length; congruence).
  assert (HlB : length (weights_of rB ins) = length actual_types)
    by (rewrite weights_of_length; congruence).
  assert (HneA : weights_of rA ins <> []).
  { intros E. rewrite E, compareAlternatives_nil in Heq.
    destruct rB; discriminate. }
  assert (HneB : weights_of rB ins <> []).
  { intros E. rewrite E in HlB. rewrite <- HlB in HlA.
    apply length_zero_iff_nil in HlA. contradiction. }
  destruct (compareAlternatives_cases (@wlt_asym W WL) (weights_of rA ins) rB ins)
    as (worse & better & E & Hworse & Hbetter); try congruence.
  rewrite E in Heq.
  assert (worse = false /\ better = false) as [-> ->]
      by (destruct worse, better; try discriminate; auto).
  split.
  - assert (Hr : resolve actual_types ins [A; B] =
                 Some {| ambiguity_alert := true; lightest := Some A;
                         cached_alt := Z.of_nat 0; lightroutes := map Some rA;
                         lightweight := weights_of rA ins |}).
    { rewrite (resolve_pair _ _ _ _ HA HB).
      rewrite (examine_first WL _ _ _ _ Hi HA HbA
                             (or_intror (possible_somewhere _ HneA HpA))).
      unfold examine. rewrite HbB. simpl lightweight. rewrite E.
      simpl. rewrite Hdiff. reflexivity. }
    apply (call_rejects_ambiguous _ _ _ _ A Hlim Hc Hr HpA eq_refl eq_refl).
  - assert (Hr : resolve actual_types ins [B; A] =
                 Some {| ambiguity_alert := true; lightest := Some B;
                         cached_alt := Z.of_nat 0; lightroutes := map Some rB;
                         lightweight := weights_of rB ins |}).
    { rewrite (resolve_pair _ _ _ _ HB HA).
      rewrite (examine_first WL _ _ _ _ Hi HB HbB
                             (or_intror (possible_somewhere _ HneB HpB))).
      unfold examine. rewrite HbA. simpl lightweight.
      rewrite (compare_from_witnesses WL (weights_of rB ins) rA ins false false);
        try congruence.
      - simpl. rewrite identicalAlternatives_sym, Hdiff. reflexivity.
      - rewrite favours_swap. exact (iff_sym Hbetter).
      - rewrite <- favours_swap. exact (iff_sym Hworse). }
    apply (call_rejects_ambiguous _ _ _ _ B Hlim Hc' Hr HpB eq_refl eq_refl).
Qed.

(** *** A call that returns, and the one after it *)

(** A call that returns has dispatched to a candidate [m] with the routes
    the table gives for it, and leaves the cache with an entry for the
    fingerprint that points at [m]. *)
Lemma call_returned_cases s args w r w1 :
  (Z.of_nat (length (m_alternatives s)) <= Cache.MISSED)%Z ->
  call s args w = (Returned r, w1) ->
  length args <= ARGUMENT_ARRAY_LIMIT /\
  exists m needed w0 evs0,
    call s args w = dispatch m needed args w0 /\
    length needed = length args /\
    bestSequenceRoute (map detectType args) (map detectInsight args) (signature m)
    = Some needed /\
    trace w0 = trace w ++ evs0 /\ invoked evs0 = [] /\
    Cache.recall (cache w0) (this s) (length args)
                 (map detectType args) (map detectInsight args) <> Cache.MISSED /\
    nth_error (m_alternatives s)
              (Z.to_nat (Cache.recall (cache w0) (this s) (length args)
                           (map detectType args) (map detectInsight args)))
    = Some m.
Proof.
  intros Hbound H.
  destruct (le_lt_dec (length args) ARGUMENT_ARRAY_LIMIT) as [Hlim|Hlim].
  2:{ rewrite (call_over_limit s args w Hlim) in H. discriminate. }
  split; [exact Hlim|].
  assert (Hi : length (map detectInsight args) = length (map detectType args))
    by now rewrite !length_map.
  destruct (Z.eq_dec (Cache.recall (cache w) (this s) (length args)
                        (map detectType args) (map detectInsight args))
                     Cache.MISSED) as [Hv|Hv].
  - destruct (resolve (map detectType args) (map detectInsight args)
                      (m_alternatives s)) as [t|] eqn:Hr.
    2:{ unfold call, call_body in H. cbv zeta in H.
        rewrite (proj2 (Nat.ltb_ge _ _) Hlim) in H. simpl cache in H.
        rewrite Hv, Z.eqb_refl, tournament_in_call, Hr in H. discriminate. }
    destruct (conversionPossible (lightweight t)) eqn:Hp.
    2:{ rewrite (call_miss_nomatch _ _ _ _ Hlim Hv Hr (or_introl Hp)) in H.
        discriminate. }
    destruct (lightest t) as [m|] eqn:Hl.
    2:{ rewrite (call_miss_nomatch _ _ _ _ Hlim Hv Hr (or_intror Hl)) in H.
        discriminate. }
    destruct (ambiguity_alert t) eqn:Ha.
    { rewrite (call_miss_ambiguous _ _ _ _ _ Hlim Hv Hr Hp Hl Ha) in H.
      discriminate. }
    pose proof (resolve_inv _ _ _ _ Hi Hr) as (_ & _ & Hm). rewrite Hl in Hm.
    destruct Hm as (index & needed & Hidx & Hnth & Hsig & Hb & Hroutes & _).
    pose proof (bestSequenceRoute_length _ _ _ _ Hi Hsig Hb) as Hn.
    rewrite length_map in Hn.
    exists m, needed. eexists.
    exists (fingerprint_events args ++ table_queries (length args) (m_alternatives s)).
    split; [apply (call_miss_selected _ _ _ _ _ _ Hlim Hv Hr Hp Hl Ha Hroutes)|].
    split; [exact Hn|]. split; [exact Hb|]. split; [reflexivity|].
    split; [now read_trace|]. simpl cache.
    assert (Hrec : Cache.recall
                     (Cache.remember (cache w) (this s) (length args)
                        (map detectType args) (map detectInsight args) (cached_alt t))
                     (this s) (length args) (map detectType args)
                     (map detectInsight args) = Z.of_nat index).
    { rewrite <- (length_map detectType args) at 1 2.
      rewrite recall_remember_same by exact Hi. exact Hidx. }
    rewrite Hrec, Nat2Z.id. split; [|exact Hnth].
    assert (index < length (m_alternatives s)) by (apply nth_error_Some; congruence).
    lia.
  - destruct (nth_error (m_alternatives s)
                (Z.to_nat (Cache.recall (cache w) (this s) (length args)
                             (map detectType args) (map detectInsight args))))
      as [m|] eqn:Hnth.
    2:{ unfold call, call_body in H. cbv zeta in H.
        rewrite (proj2 (Nat.ltb_ge _ _) Hlim) in H. simpl cache in H.
        rewrite (proj2 (Z.eqb_neq _ _) Hv), Hnth in H. discriminate. }
    destruct (bestSequenceRoute (map detectType args) (map detectInsight args)
                                (signature m)) as [needed|] eqn:Hb.
    2:{ unfold call, call_body in H. cbv zeta in H.
        rewrite (proj2 (Nat.ltb_ge _ _) Hlim) in H. simpl cache in H.
        rewrite (proj2 (Z.eqb_neq _ _) Hv), Hnth, Hb in H. discriminate. }
    pose proof (call_hit s args w m needed Hlim Hv Hnth Hb) as Hcall.
    assert (Hn : length needed = length args).
    { rewrite Hcall in H. unfold dispatch in H.
      destruct (convertSequence args (map Some needed) [] _) as [p|] eqn:Hc;
        [|discriminate].
      apply convertSequence_defined_length in Hc. now rewrite length_map in Hc. }
    exists m, needed. eexists.
    exists (fingerprint_events args ++ [BestSequenceRoute (signature m)]).
    split; [exact Hcall|]. split; [exact Hn|]. split; [exact Hb|].
    split; [reflexivity|]. split; [now read_trace|]. simpl cache. auto.
Qed.

(** C6. After a call that returned, a second call on the same set with
    actuals of the same detected types and insights is a cache hit: the
    cache answers with the index of the candidate the first call invoked,
    the table is asked for the routes of that one candidate only, the
    actuals are converted along them and the candidate is invoked; the
    cache is not written. *)
Theorem second_call_hits s args args' w r w1 :
  (Z.of_nat (length (m_alternatives s)) <= Cache.MISSED)%Z ->
  call s args w = (Returned r, w1) ->
  map detectType args' = map detectType args ->
  map detectInsight args' = map detectInsight args ->
  exists m needed evs1 evs2,
    trace w1 = trace w ++ evs1 /\ invoked evs1 = [m] /\
    Cache.recall (cache w1) (this s) (length args')
                 (map detectType args') (map detectInsight args') <> Cache.MISSED /\
    nth_error (m_alternatives s)
              (Z.to_nat (Cache.recall (cache w1) (this s) (length args')
                           (map detectType args') (map detectInsight args')))
    = Some m /\
    bestSequenceRoute (map detectType args') (map detectInsight args') (signature m)
    = Some needed /\
    trace (snd (call s args' w1)) = trace w1 ++ evs2 /\
    queried evs2 = [signature m] /\
    invoked evs2 = [m] /\
    In (Invoke m (converted_by needed args')) evs2 /\
    cache (snd (call s args' w1)) = cache w1.
Proof.
  intros Hbound H Ht Hi.
  destruct (call_returned_cases _ _ _ _ _ Hbound H)
    as (Hlim & m & needed & w0 & evs0 & Hcall & Hn & Hb & Htr0 & Hinv0 & Hv & Hnth).
  rewrite Hcall in H.
  destruct (dispatch_spec m needed args w0 Hn) as (o & edge & Hd & Hedge & _).
  rewrite Hd in H. injection H as Ho Hw1.
  assert (Hcache : cache w1 = cache w0) by (rewrite <- Hw1; reflexivity).
  assert (Hlen : length args' = length args).
  { rewrite <- (length_map detectType args'), Ht. apply length_map. }
  assert (Hlim' : length args' <= ARGUMENT_ARRAY_LIMIT) by (rewrite Hlen; exact Hlim).
  assert (Hv' : Cache.recall (cache w1) (this s) (length args')
                             (map detectType args') (map detectInsight args')
                = Cache.recall (cache w0) (this s) (length args)
                               (map detectType args) (map detectInsight args))
    by (rewrite Ht, Hi, Hlen, Hcache; reflexivity).
  assert (Hb' : bestSequenceRoute (map detectType args') (map detectInsight args')
                                  (signature m) = Some needed)
    by (rewrite Ht, Hi; exact Hb).
  assert (Hcall' :
            call s args' w1
            = dispatch m needed args'
                (log (fingerprint_events args' ++ [BestSequenceRoute (signature m)])
                     w1)).
  { apply call_hit; auto; rewrite Hv'; auto. }
  destruct (dispatch_spec m needed args'
              (log (fingerprint_events args' ++ [BestSequenceRoute (signature m)])
                   w1))
    as (o' & edge' & Hd' & Hedge' & _); [congruence|].
  rewrite Hcall', Hd', log_log, Hv'. simpl snd.
  exists m, needed. eexists. eexists.
  split. { rewrite <- Hw1. simpl. rewrite Htr0, <- app_assoc. reflexivity. }
  split. { destruct Hedge as [-> | (v & ->)]; read_trace;
           unfold invoked in Hinv0; now rewrite Hinv0. }
  split; [exact Hv|]. split; [exact Hnth|]. split; [exact Hb'|].
  split; [reflexivity|].
  split. { destruct Hedge' as [-> | (v & ->)]; now read_trace. }
  split. { destruct Hedge' as [-> | (v & ->)]; now read_trace. }
  split; [|reflexivity].
  apply in_or_app. right. apply in_or_app. right. simpl. auto.
Qed.

(** ** Further properties of the helpers *)

(** *** Signatures and cache keys *)

Lemma same_arguments_eq a :
  forall b, length a = length b -> (same_arguments a b = true <-> a = b).
Proof.
  induction a as [|x a IH]; intros [|y b] H; simpl in *; try discriminate.
  - tauto.
  - injection H as H. destruct (x =? y)%Z eqn:E; simpl.
    + apply Z.eqb_eq in E. subst y. rewrite (IH b H).
      split; [intros ->; reflexivity|intros H'; now injection H'].
    + apply Z.eqb_neq in E. split; [discriminate|].
      intros H'. injection H' as H' _. contradiction.
Qed.

Lemma identical_iff_signature alt1 alt2 :
  identicalAlternatives alt1 alt2 = true <-> signature alt1 = signature alt2.
Proof.
  unfold identicalAlternatives.
  destruct (length (signature alt1) =? length (signature alt2)) eqn:E; simpl.
  - apply Nat.eqb_eq in E. now apply same_arguments_eq.
  - apply Nat.eqb_neq in E. split; [discriminate|].
    intros H. rewrite H in E. contradiction.
Qed.

(** X1. [identicalAlternatives] is an equivalence on candidates, the one
    that compares signatures: it holds of two candidates exactly when their
    signatures are the same list of type handles (return type and callable
    play no part), so it is reflexive, symmetric and transitive. *)
Theorem identicalAlternatives_structural alt1 alt2 alt3 :
  (identicalAlternatives alt1 alt2 = true <-> signature alt1 = signature alt2) /\
  identicalAlternatives alt1 alt1 = true /\
  identicalAlternatives alt1 alt2 = identicalAlternatives alt2 alt1 /\
  (identicalAlternatives alt1 alt2 = true ->
   identicalAlternatives alt2 alt3 = true ->
   identicalAlternatives alt1 alt3 = true).
Proof.
  split; [apply identical_iff_signature|].
  split; [apply identicalAlternatives_refl|].
  split; [apply identicalAlternatives_sym|].
  rewrite !identical_iff_signature. congruence.
Qed.

Lemma same_entries_prefix n :
  forall a1 i1 a2 i2,
    Cache.same_entries n a1 i1 a2 i2 = true ->
    firstn n a1 = firstn n a2 /\ firstn n i1 = firstn n i2 /\
    n <= length a1 /\ n <= length a2.
Proof.
  induction n as [|n IH]; intros [|x1 a1] [|p1 i1] [|x2 a2] [|p2 i2] H;
    simpl in *; try discriminate; auto with arith.
  destruct (x1 =? x2)%Z eqn:Ex; simpl in H; [|discriminate].
  destruct (p1 =? p2)%Z eqn:Ep; simpl in H; [|discriminate].
  apply Z.eqb_eq in Ex, Ep. subst.
  destruct (IH _ _ _ _ H) as (-> & -> & H1 & H2). repeat split; lia.
Qed.

(** X2. On keys whose arrays hold [nargs] entries, [KeyIdentityFunctor]
    answers true exactly for equal keys: same set, same arity, the same type
    handles and the same insights, position by position. *)
Theorem KeyIdentityFunctor_equality key1 key2 :
  well_formed_key key1 ->
  well_formed_key key2 ->
  (Cache.KeyIdentityFunctor key1 key2 = true <-> key1 = key2).
Proof.
  intros [Ha1 Hi1] [Ha2 Hi2]. split.
  - unfold Cache.KeyIdentityFunctor. intros H.
    destruct (Cache.group key1 =? Cache.group key2)%Z eqn:Eg; simpl in H;
      [|discriminate].
    destruct (Cache.nargs key1 =? Cache.nargs key2) eqn:En; simpl in H;
      [|discriminate].
    apply Z.eqb_eq in Eg. apply Nat.eqb_eq in En.
    rewrite <- En in Ha2, Hi2.
    destruct (same_entries_eq (Cache.nargs key1) _ _ _ _ Ha1 Hi1 Ha2 Hi2 H)
      as [Ea Ei].
    destruct key1, key2; simpl in *. congruence.
  - intros <-. unfold Cache.KeyIdentityFunctor.
    rewrite Z.eqb_refl, Nat.eqb_refl. simpl. now apply same_entries_refl.
Qed.

Lemma sum_addresses_prefix n :
  forall a1 a2 accum,
    firstn n a1 = firstn n a2 ->
    Cache.sum_addresses n a1 accum = Cache.sum_addresses n a2 accum.
Proof.
  induction n as [|n IH]; intros [|x1 a1] [|x2 a2] accum H; simpl in *;
    try discriminate; auto.
  injection H as -> H. now apply IH.
Qed.

(** X3. [KeyHashFunctor] is compatible with [KeyIdentityFunctor]: keys the
    identity functor takes for the same hash to the same value. *)
Theorem KeyHashFunctor_respects_identity key1 key2 :
  Cache.KeyIdentityFunctor key1 key2 = true ->
  Cache.KeyHashFunctor key1 = Cache.KeyHashFunctor key2.
Proof.
  unfold Cache.KeyIdentityFunctor, Cache.KeyHashFunctor. intros H.
  destruct (Cache.group key1 =? Cache.group key2)%Z eqn:Eg; simpl in H;
    [|discriminate].
  destruct (Cache.nargs key1 =? Cache.nargs key2) eqn:En; simpl in H;
    [|discriminate].
  apply Z.eqb_eq in Eg. apply Nat.eqb_eq in En.
  apply same_entries_prefix in H. destruct H as (Ha & _).
  rewrite <- Eg, <- En. now apply sum_addresses_prefix.
Qed.

Lemma less_entries_irrefl n :
  forall a i, Cache.less_entries n a i a i = false.
Proof.
  induction n as [|n IH]; intros [|x a] [|p i]; simpl; auto.
  rewrite !Z.ltb_irrefl, !Z.gtb_ltb, !Z.ltb_irrefl. apply IH.
Qed.

Lemma less_entries_same n :
  forall a1 i1 a2 i2,
    Cache.same_entries n a1 i1 a2 i2 = true ->
    Cache.less_entries n a1 i1 a2 i2 = false.
Proof.
  induction n as [|n IH]; intros [|x1 a1] [|p1 i1] [|x2 a2] [|p2 i2] H;
    simpl in *; try discriminate; auto.
  destruct (x1 =? x2)%Z eqn:Ex; simpl in H; [|discriminate].
  destruct (p1 =? p2)%Z eqn:Ep; simpl in H; [|discriminate].
  apply Z.eqb_eq in Ex, Ep. subst.
  rewrite !Z.ltb_irrefl, !Z.gtb_ltb, !Z.ltb_irrefl. now apply IH.
Qed.

Lemma less_entries_asym n :
  forall a1 i1 a2 i2,
    Cache.less_entries n a1 i1 a2 i2 = true ->
    Cache.less_entries n a2 i2 a1 i1 = false.
Proof.
  induction n as [|n IH]; intros [|x1 a1] [|p1 i1] [|x2 a2] [|p2 i2] H;
    simpl in *; try discriminate; auto.
  rewrite !Z.gtb_ltb in *.
  destruct (x1 <? x2)%Z eqn:E1, (x2 <? x1)%Z eqn:E2;
    try (apply Z.ltb_lt in E1); try (apply Z.ltb_lt in E2);
    try lia; try discriminate; auto.
  destruct (p1 <? p2)%Z eqn:E3, (p2 <? p1)%Z eqn:E4;
    try (apply Z.ltb_lt in E3); try (apply Z.ltb_lt in E4);
    try lia; try discriminate; auto.
Qed.

Lemma less_entries_trans n :
  forall a1 i1 a2 i2 a3 i3,
    Cache.less_entries n a1 i1 a2 i2 = true ->
    Cache.less_entries n a2 i2 a3 i3 = true ->
    Cache.less_entries n a1 i1 a3 i3 = true.
Proof.
  induction n as [|n IH];
    intros [|x1 a1] [|p1 i1] [|x2 a2] [|p2 i2] [|x3 a3] [|p3 i3] H12 H23;
    simpl in *; try discriminate.
  rewrite !Z.gtb_ltb in *.
  destruct (x1 <? x2)%Z eqn:A12, (x2 <? x1)%Z eqn:B12,
           (x2 <? x3)%Z eqn:A23, (x3 <? x2)%Z eqn:B23;
    try discriminate;
    repeat match goal with
           | H : (_ <? _)%Z = true |- _ => apply Z.ltb_lt in H
           | H : (_ <? _)%Z = false |- _ => apply Z.ltb_ge in H
           end; try lia;
    try (replace (x1 <? x3)%Z with true by (symmetry; apply Z.ltb_lt; lia);
         reflexivity).
  assert (x1 = x3) by lia. subst x3. assert (x2 = x1) by lia. subst x2.
  rewrite !Z.ltb_irrefl.
  destruct (p1 <? p2)%Z eqn:C12, (p2 <? p1)%Z eqn:D12,
           (p2 <? p3)%Z eqn:C23, (p3 <? p2)%Z eqn:D23;
    try discriminate;
    repeat match goal with
           | H : (_ <? _)%Z = true |- _ => apply Z.ltb_lt in H
           | H : (_ <? _)%Z = false |- _ => apply Z.ltb_ge in H
           end; try lia;
    try (replace (p1 <? p3)%Z with true by (symmetry; apply Z.ltb_lt; lia);
         reflexivity).
  assert (p1 = p3) by lia. subst p3. assert (p2 = p1) by lia. subst p2.
  rewrite !Z.ltb_irrefl. eapply IH; eauto.
Qed.

Lemma less_entries_total n :
  forall a1 i1 a2 i2,
    length a1 = n -> length i1 = n -> length a2 = n -> length i2 = n ->
    Cache.less_entries n a1 i1 a2 i2 = false ->
    Cache.less_entries n a2 i2 a1 i1 = false ->
    Cache.same_entries n a1 i1 a2 i2 = true.
Proof.
  induction n as [|n IH]; intros [|x1 a1] [|p1 i1] [|x2 a2] [|p2 i2] L1 L2 L3 L4 H12 H21;
    simpl in *; try discriminate; auto.
  rewrite !Z.gtb_ltb in *.
  destruct (x1 <? x2)%Z eqn:E1; [discriminate|].
  destruct (x2 <? x1)%Z eqn:E2; [discriminate|].
  apply Z.ltb_ge in E1, E2. assert (x1 = x2) by lia. subst x2.
  destruct (p1 <? p2)%Z eqn:E3; [discriminate|].
  destruct (p2 <? p1)%Z eqn:E4; [discriminate|].
  apply Z.ltb_ge in E3, E4. assert (p1 = p2) by lia. subst p2.
  rewrite !Z.eqb_refl. simpl. apply IH; auto.
Qed.

(** X4. [KeyCompareFunctor] is a strict order: no key is below itself, no
    two keys are below each other, and it is transitive. *)
Theorem KeyCompareFunctor_strict_order key1 key2 key3 :
  Cache.KeyCompareFunctor key1 key1 = false /\
  (Cache.KeyCompareFunctor key1 key2 = true ->
   Cache.KeyCompareFunctor key2 key1 = false) /\
  (Cache.KeyCompareFunctor key1 key2 = true ->
   Cache.KeyCompareFunctor key2 key3 = true ->
   Cache.KeyCompareFunctor key1 key3 = true).
Proof.
  unfold Cache.KeyCompareFunctor. rewrite !Z.gtb_ltb. repeat split.
  - rewrite Z.ltb_irrefl, Nat.ltb_irrefl. apply less_entries_irrefl.
  - destruct (Cache.group key1 <? Cache.group key2)%Z eqn:G12,
             (Cache.group key2 <? Cache.group key1)%Z eqn:G21;
      try (apply Z.ltb_lt in G12); try (apply Z.ltb_lt in G21);
      try lia; try discriminate; auto.
    destruct (Cache.nargs key1 <? Cache.nargs key2) eqn:N12,
             (Cache.nargs key2 <? Cache.nargs key1) eqn:N21;
      try (apply Nat.ltb_lt in N12); try (apply Nat.ltb_lt in N21);
      try lia; try discriminate; auto.
    apply Nat.ltb_ge in N12, N21.
    replace (Cache.nargs key2) with (Cache.nargs key1) by lia.
    apply less_entries_asym.
  - destruct (Cache.group key1 <? Cache.group key2)%Z eqn:G12,
             (Cache.group key2 <? Cache.group key1)%Z eqn:G21,
             (Cache.group key2 <? Cache.group key3)%Z eqn:G23,
             (Cache.group key3 <? Cache.group key2)%Z eqn:G32;
      try discriminate;
      repeat match goal with
             | H : (_ <? _)%Z = true |- _ => apply Z.ltb_lt in H
             | H : (_ <? _)%Z = false |- _ => apply Z.ltb_ge in H
             end; try lia;
      try (intros _ _;
           replace (Cache.group key1 <? Cache.group key3)%Z with true
             by (symmetry; apply Z.ltb_lt; lia);
           reflexivity).
    replace (Cache.group key1 <? Cache.group key3)%Z with false
      by (symmetry; apply Z.ltb_ge; lia).
    replace (Cache.group key3 <? Cache.group key1)%Z with false
      by (symmetry; apply Z.ltb_ge; lia).
    destruct (Cache.nargs key1 <? Cache.nargs key2) eqn:N12,
             (Cache.nargs key2 <? Cache.nargs key1) eqn:N21,
             (Cache.nargs key2 <? Cache.nargs key3) eqn:N23,
             (Cache.nargs key3 <? Cache.nargs key2) eqn:N32;
      try discriminate;
      repeat match goal with
             | H : (_ <? _) = true |- _ => apply Nat.ltb_lt in H
             | H : (_ <? _) = false |- _ => apply Nat.ltb_ge in H
             end; try lia;
      try (intros _ _;
           replace (Cache.nargs key1 <? Cache.nargs key3) with true
             by (symmetry; apply Nat.ltb_lt; lia);
           reflexivity).
    replace (Cache.nargs key1 <? Cache.nargs key3) with false
      by (symmetry; apply Nat.ltb_ge; lia).
    replace (Cache.nargs key3 <? Cache.nargs key1) with false
      by (symmetry; apply Nat.ltb_ge; lia).
    replace (Cache.nargs key2) with (Cache.nargs key1) by lia.
    apply less_entries_trans.
Qed.

(** X5. On keys whose arrays hold [nargs] entries, two keys are unordered
    by [KeyCompareFunctor] exactly when [KeyIdentityFunctor] takes them for
    the same: the ordered and the hashed container agree on what a key is. *)
Theorem KeyCompareFunctor_equivalence key1 key2 :
  well_formed_key key1 ->
  well_formed_key key2 ->
  (Cache.KeyCompareFunctor key1 key2 = false /\
   Cache.KeyCompareFunctor key2 key1 = false <->
   Cache.KeyIdentityFunctor key1 key2 = true).
Proof.
  intros [Ha1 Hi1] [Ha2 Hi2].
  unfold Cache.KeyCompareFunctor, Cache.KeyIdentityFunctor.
  rewrite !Z.gtb_ltb. split.
  - intros [H12 H21].
    destruct (Cache.group key1 <? Cache.group key2)%Z eqn:G12; [discriminate|].
    destruct (Cache.group key2 <? Cache.group key1)%Z eqn:G21; [discriminate|].
    apply Z.ltb_ge in G12, G21.
    replace (Cache.group key1 =? Cache.group key2)%Z with true
      by (symmetry; apply Z.eqb_eq; lia).
    destruct (Cache.nargs key1 <? Cache.nargs key2) eqn:N12; [discriminate|].
    destruct (Cache.nargs key2 <? Cache.nargs key1) eqn:N21; [discriminate|].
    apply Nat.ltb_ge in N12, N21.
    assert (En : Cache.nargs key2 = Cache.nargs key1) by lia.
    rewrite En in *. rewrite Nat.eqb_refl. simpl.
    apply less_entries_total; auto.
  - intros H.
    destruct (Cache.group key1 =? Cache.group key2)%Z eqn:Eg; simpl in H;
      [|discriminate].
    destruct (Cache.nargs key1 =? Cache.nargs key2) eqn:En; simpl in H;
      [|discriminate].
    apply Z.eqb_eq in Eg. apply Nat.eqb_eq in En.
    rewrite <- Eg, <- En, Z.ltb_irrefl, Nat.ltb_irrefl.
    rewrite <- En in Ha2, Hi2.
    destruct (same_entries_eq (Cache.nargs key1) _ _ _ _ Ha1 Hi1 Ha2 Hi2 H)
      as [Ea Ei].
    rewrite <- Ea, <- Ei. split; apply less_entries_irrefl.
Qed.

(** *** The comparison with the sides exchanged, and the array versions *)

(** X6. Exchanging the two candidates mirrors the verdict of
    [compareAlternatives]: for vectors of equal, non-zero length, BETTER
    becomes WORSE and WORSE becomes BETTER, while EQUIVALENT and AMBIGUOUS
    stay. (With zero arity both directions answer BETTER.) *)
Theorem compareAlternatives_mirrored
        (Hasym : forall a b : Weight, wlt a b = true -> wlt b a = false)
        rA rB ins v :
  length rB = length rA ->
  length ins = length rA ->
  rA <> [] ->
  compareAlternatives (weights_of rA ins) rB ins = Some v ->
  compareAlternatives (weights_of rB ins) rA ins = Some (mirrored v).
Proof.
  intros HB Hi Hne H.
  assert (HlA : length (weights_of rA ins) = length rA)
    by now apply weights_of_length.
  assert (HlB : length (weights_of rB ins) = length rB)
    by (apply weights_of_length; congruence).
  assert (HneA : weights_of rA ins <> [])
    by (intros E; rewrite E in HlA; destruct rA; [congruence|discriminate]).
  assert (HneB : weights_of rB ins <> [])
    by (intros E; rewrite E in HlB; destruct rB;
        [destruct rA; [congruence|discriminate]|discriminate]).
  destruct (compareAlternatives_cases Hasym (weights_of rA ins) rB ins)
    as (w1 & b1 & E1 & Hw1 & Hb1); try congruence.
  destruct (compareAlternatives_cases Hasym (weights_of rB ins) rA ins)
    as (w2 & b2 & E2 & Hw2 & Hb2); try congruence.
  rewrite E1 in H. injection H as <-. rewrite E2. f_equal.
  rewrite favours_swap in Hw2. rewrite <- favours_swap in Hb2.
  assert (w2 = b1) as -> by (destruct w2, b1; intuition congruence).
  assert (b2 = w1) as -> by (destruct b2, w1; intuition congruence).
  destruct w1, b1; reflexivity.
Qed.

Lemma scan_witnesses_array_agrees n :
  forall known suggested ins worse better,
    length known = n -> length suggested = n ->
    scan_witnesses_array n known suggested ins worse better =
    scan_witnesses known suggested ins worse better.
Proof.
  induction n as [|n IH]; intros [|k known] [|r suggested] ins worse better Hk Hs;
    simpl in *; try discriminate; auto.
  injection Hk as Hk. injection Hs as Hs.
  destruct ins as [|i ins]; [reflexivity|].
  destruct (wlt k (totalWeight r i)); [now apply IH|].
  destruct (wlt (totalWeight r i) k); now apply IH.
Qed.

(** X7. The array version of [compareAlternatives] gives the verdict of
    the vector version whenever both arrays hold [nargs] entries, also when
    the insights run out early (neither has a defined result then). *)
Theorem compareAlternatives_array_agrees nargs known suggested ins :
  length known = nargs ->
  length suggested = nargs ->
  compareAlternatives_array nargs known suggested ins =
  compareAlternatives known suggested ins.
Proof.
  intros Hk Hs. unfold compareAlternatives_array, compareAlternatives.
  rewrite Hk, Hs, Nat.eqb_refl. simpl.
  now rewrite scan_witnesses_array_agrees.
Qed.

Lemma rememberWeights_array_agrees n :
  forall l ins, length l = n -> rememberWeights_array n l ins = rememberWeights l ins.
Proof.
  induction n as [|n IH]; intros [|r l] ins H; simpl in *; try discriminate; auto.
  destruct ins as [|i ins]; [reflexivity|]. rewrite IH by lia. reflexivity.
Qed.

Lemma conversionPossible_array_agrees n :
  forall weights,
    length weights = n ->
    conversionPossible_array n weights = Some (conversionPossible weights).
Proof.
  induction n as [|n IH]; intros [|x weights] H; simpl in *; try discriminate; auto.
  destruct (isPossible x); simpl; [apply IH; lia|reflexivity].
Qed.

Lemma convertSequence_array_agrees n :
  forall original conversions gc w,
    length original = n ->
    convertSequence_array n original conversions gc w =
    convert_each original conversions gc w.
Proof.
  induction n as [|n IH]; intros [|v original] conversions gc w H;
    simpl in *; try discriminate; auto.
  destruct conversions as [|[route|] conversions]; try reflexivity.
  destruct (route_apply route v) as [v' ts]. unfold trash.
  rewrite IH by lia. reflexivity.
Qed.

(** X8. The array versions of [rememberWeights], [conversionPossible] and
    [convertSequence] compute what the vector versions compute whenever the
    arrays hold [nargs] entries. *)
Theorem array_versions_agree nargs routes ins weights original conversions gc w :
  length routes = nargs ->
  length weights = nargs ->
  length original = nargs ->
  length conversions = nargs ->
  rememberWeights_array nargs routes ins = rememberWeights routes ins /\
  conversionPossible_array nargs weights = Some (conversionPossible weights) /\
  convertSequence_array nargs original conversions gc w =
  convertSequence original conversions gc w.
Proof.
  intros Hr Hw Ho Hc. split; [|split].
  - now apply rememberWeights_array_agrees.
  - now apply conversionPossible_array_agrees.
  - unfold convertSequence. rewrite Ho, Hc, Nat.eqb_refl. simpl.
    now apply convertSequence_array_agrees.
Qed.

(** ** Further properties of [call] *)

(** *** Candidates that do not take part *)

Lemma tournament_skip actual_types ins alts :
  (forall alt, In alt alts -> viable actual_types ins alt = false) ->
  forall index t w,
    tournament actual_types ins (length actual_types) alts index t w =
    Some (t, log (table_queries (length actual_types) alts) w).
Proof.
  unfold table_queries.
  induction alts as [|alt alts IH]; intros Hnone index t w; simpl.
  - now rewrite log_nil.
  - assert (Hrest : forall a, In a alts -> viable actual_types ins a = false)
      by (intros a Ha; apply Hnone; now right).
    pose proof (Hnone alt (or_introl eq_refl)) as Halt. unfold viable in Halt.
    destruct (length (signature alt) =? length actual_types); simpl in *.
    + unfold examine.
      destruct (bestSequenceRoute actual_types ins (signature alt));
        [discriminate|].
      rewrite (IH Hrest). now rewrite log_log.
    + apply (IH Hrest).
Qed.

Lemma sound_miss s args w t :
  cache_sound s (cache w) ->
  resolve (map detectType args) (map detectInsight args) (m_alternatives s) = Some t ->
  conversionPossible (lightweight t) = false \/ lightest t = None \/
  ambiguity_alert t = true ->
  Cache.recall (cache w) (this s) (length args)
               (map detectType args) (map detectInsight args) = Cache.MISSED.
Proof.
  intros Hc Hr Hbad.
  destruct (Z.eq_dec (Cache.recall (cache w) (this s) (length args)
                        (map detectType args) (map detectInsight args))
                     Cache.MISSED) as [Hv|Hv]; [exact Hv|exfalso].
  destruct (sound_hit_is_winner _ _ _ _ Hc Hr Hv) as (Hp & (m & Hl) & Ha & _).
  destruct Hbad as [H|[H|H]]; congruence.
Qed.

(** X9. When no candidate takes part -- each one has another arity, or
    the table finds no route for some position, which the tournament
    swallows -- [call] with at most twelve actuals on a sound cache raises
    [OverloadingNoMatchException], having asked the table once for each
    candidate of the call's arity and invoked nothing. *)
Theorem no_viable_no_match s args w :
  length args <= ARGUMENT_ARRAY_LIMIT ->
  cache_sound s (cache w) ->
  (forall alt, In alt (m_alternatives s) ->
               viable (map detectType args) (map detectInsight args) alt = false) ->
  call s args w =
  (Thrown OverloadingNoMatchException,
   log (fingerprint_events args ++ table_queries (length args) (m_alternatives s)) w).
Proof.
  intros Hlim Hc Hnone.
  assert (Hr : resolve (map detectType args) (map detectInsight args)
                       (m_alternatives s)
               = Some (tournament_start (length (map detectType args)))).
  { unfold resolve. now rewrite (tournament_skip _ _ _ Hnone). }
  apply (call_miss_nomatch s args w
           (tournament_start (length (map detectType args))) Hlim);
    [|exact Hr|right; reflexivity].
  apply (sound_miss _ _ _ _ Hc Hr). right. left. reflexivity.
Qed.

Lemma possible_or_nullary n needed ins :
  length needed = n -> length ins = n ->
  conversionPossible (weights_of needed ins) = true ->
  n = 0 \/ (exists s, In s (weights_of needed ins) /\ isPossible s = true).
Proof.
  intros Hn Hi Hp. destruct n as [|n]; [now left|right].
  apply possible_somewhere; [|exact Hp].
  intros E. pose proof (weights_of_length needed ins) as Hl.
  rewrite E in Hl. simpl in Hl. lia.
Qed.

(** X10. A single candidate that takes part wins: when exactly one
    registered candidate has the call's arity and routes for all positions,
    and the weights of its routes are possible, [call] on a sound cache
    invokes that candidate and no other, wherever it stands in the set. *)
Theorem unique_viable_selected (WL : WeightLaws W) s args w pre m post needed :
  length args <= ARGUMENT_ARRAY_LIMIT ->
  cache_sound s (cache w) ->
  m_alternatives s = pre ++ m :: post ->
  (forall alt, In alt (pre ++ post) ->
               viable (map detectType args) (map detectInsight args) alt = false) ->
  length (signature m) = length args ->
  bestSequenceRoute (map detectType args) (map detectInsight args) (signature m)
  = Some needed ->
  conversionPossible (weights_of needed (map detectInsight args)) = true ->
  exists evs,
    trace (snd (call s args w)) = trace w ++ evs /\
    invoked evs = [m] /\
    ((exists r, fst (call s args w) = Returned r) \/
     (exists z, fst (call s args w) = Thrown (NativeException z))).
Proof.
  intros Hlim Hc Halts Hnone Hsig Hb Hp.
  set (actual_types := map detectType args) in *.
  set (ins := map detectInsight args) in *.
  assert (Hi : length ins = length actual_types)
    by (unfold ins, actual_types; now rewrite !length_map).
  assert (Hn : length actual_types = length args)
    by (unfold actual_types; now rewrite length_map).
  rewrite <- Hn in Hsig.
  pose proof (bestSequenceRoute_length _ _ _ _ Hi Hsig Hb) as Hlen.
  assert (Hr : resolve actual_types ins (m_alternatives s) =
               Some {| ambiguity_alert := false; lightest := Some m;
                       cached_alt := Z.of_nat (length pre);
                       lightroutes := map Some needed;
                       lightweight := weights_of needed ins |}).
  { unfold resolve. rewrite Halts, tournament_app.
    rewrite tournament_skip
      by (intros a Ha; apply Hnone; apply in_or_app; now left).
    simpl tournament. rewrite (proj2 (Nat.eqb_eq _ _) Hsig).
    rewrite (examine_better actual_types ins (length pre) m
                            (tournament_start (length actual_types)) needed);
      auto; try (simpl; now rewrite repeat_length).
    - rewrite tournament_skip
        by (intros a Ha; apply Hnone; apply in_or_app; now right).
      reflexivity.
    - simpl. apply initial_comparison; auto; try congruence.
      apply possible_or_nullary; congruence. }
  apply (call_selects s args w _ m Hlim Hc Hr Hp eq_refl eq_refl).
Qed.

(** *** Ties *)

Lemma compare_self
      (Hasym : forall a b : Weight, wlt a b = true -> wlt b a = false) r ins :
  length ins = length r -> r <> [] ->
  compareAlternatives (weights_of r ins) r ins = Some OL_EQUIVALENT.
Proof.
  intros Hi Hne.
  pose proof (weights_of_length r ins Hi) as Hl.
  assert (Hnil : weights_of r ins <> [])
    by (intros E; rewrite E in Hl; destruct r; [congruence|discriminate]).
  destruct (compareAlternatives_cases Hasym (weights_of r ins) r ins)
    as (worse & better & E & Hw & Hb); try congruence.
  rewrite E.
  assert (Hself : forall n k s,
             nth_error (weights_of r ins) n = Some k ->
             nth_error (weights_of r ins) n = Some s -> wlt k s = true -> False).
  { intros n k s Hk Hs Hlt. rewrite Hk in Hs. injection Hs as <-.
    pose proof (Hasym _ _ Hlt). congruence. }
  destruct worse.
  - exfalso. destruct (proj1 Hw eq_refl) as (n & k & s & Hk & Hs & Hlt). eauto.
  - destruct better; [|reflexivity].
    exfalso. destruct (proj1 Hb eq_refl) as (n & k & s & Hk & Hs & Hlt). eauto.
Qed.

(** X11. Two candidates with the same signature (a const and a non-const
    overload) do not make a call ambiguous: with one actual or more, at most
    twelve, and possible route weights, [call] on a sound cache invokes the
    first-registered of the two. *)
Theorem identical_pair_first_wins (WL : WeightLaws W) me A B needed args w :
  args <> [] ->
  length args <= ARGUMENT_ARRAY_LIMIT ->
  cache_sound {| this := me; m_alternatives := [A; B] |} (cache w) ->
  identicalAlternatives A B = true ->
  length (signature A) = length args ->
  bestSequenceRoute (map detectType args) (map detectInsight args) (signature A)
  = Some needed ->
  conversionPossible (weights_of needed (map detectInsight args)) = true ->
  exists evs,
    trace (snd (call {| this := me; m_alternatives := [A; B] |} args w))
    = trace w ++ evs /\
    invoked evs = [A] /\
    ((exists r, fst (call {| this := me; m_alternatives := [A; B] |} args w)
                = Returned r) \/
     (exists z, fst (call {| this := me; m_alternatives := [A; B] |} args w)
                = Thrown (NativeException z))).
Proof.
  intros Hne Hlim Hc Hid HA Hb Hp.
  apply identical_iff_signature in Hid.
  set (actual_types := map detectType args) in *.
  set (ins := map detectInsight args) in *.
  assert (Hi : length ins = length actual_types)
    by (unfold ins, actual_types; now rewrite !length_map).
  assert (Hn : length actual_types = length args)
    by (unfold actual_types; now rewrite length_map).
  rewrite <- Hn in HA.
  assert (HB : length (signature B) = length actual_types) by congruence.
  pose proof (bestSequenceRoute_length _ _ _ _ Hi HA Hb) as Hlen.
  assert (Hneeded : needed <> []).
  { intros E. apply Hne. apply length_zero_iff_nil.
    rewrite <- Hn, <- Hlen, E. reflexivity. }
  assert (Hr : resolve actual_types ins [A; B] =
               Some {| ambiguity_alert := false; lightest := Some A;
                       cached_alt := Z.of_nat 0; lightroutes := map Some needed;
                       lightweight := weights_of needed ins |}).
  { rewrite (resolve_pair _ _ _ _ HA HB).
    rewrite (examine_first WL _ _ _ _ Hi HA Hb)
      by (apply possible_or_nullary; congruence).
    unfold examine. rewrite <- Hid, Hb. simpl lightweight.
    rewrite (compare_self (@wlt_asym W WL)) by congruence.
    simpl lightest. cbv iota.
    replace (identicalAlternatives A B) with true
      by (symmetry; now apply identical_iff_signature).
    reflexivity. }
  apply (call_selects _ args w _ A Hlim Hc Hr Hp eq_refl eq_refl).
Qed.

(** X12. A later candidate that compares BETTER wins whatever stood
    before: if the last-registered candidate compares BETTER against the
    champion weights the tournament has reached on the candidates before it,
    and its own route weights are possible, [call] on a sound cache invokes
    it, also when the earlier candidates had raised the ambiguity flag. *)
Theorem late_better_wins s args w pre C t needed :
  length args <= ARGUMENT_ARRAY_LIMIT ->
  cache_sound s (cache w) ->
  m_alternatives s = pre ++ [C] ->
  resolve (map detectType args) (map detectInsight args) pre = Some t ->
  length (signature C) = length args ->
  bestSequenceRoute (map detectType args) (map detectInsight args) (signature C)
  = Some needed ->
  compareAlternatives (lightweight t) needed (map detectInsight args)
  = Some OL_BETTER ->
  conversionPossible (weights_of needed (map detectInsight args)) = true ->
  exists evs,
    trace (snd (call s args w)) = trace w ++ evs /\
    invoked evs = [C] /\
    ((exists r, fst (call s args w) = Returned r) \/
     (exists z, fst (call s args w) = Thrown (NativeException z))).
Proof.
  intros Hlim Hc Halts Hpre Hsig Hb Hcmp Hp.
  set (actual_types := map detectType args) in *.
  set (ins := map detectInsight args) in *.
  assert (Hi : length ins = length actual_types)
    by (unfold ins, actual_types; now rewrite !length_map).
  assert (Hn : length actual_types = length args)
    by (unfold actual_types; now rewrite length_map).
  rewrite <- Hn in Hsig.
  destruct (champion_inv_lengths _ _ _ _ (resolve_inv _ _ _ _ Hi Hpre)) as [Hw Hl].
  assert (Hr : resolve actual_types ins (m_alternatives s) =
               Some {| ambiguity_alert := false; lightest := Some C;
                       cached_alt := Z.of_nat (length pre);
                       lightroutes := map Some needed;
                       lightweight := weights_of needed ins |}).
  { unfold resolve in *. rewrite Halts, tournament_app.
    destruct (tournament actual_types ins (length actual_types) pre 0
                         (tournament_start (length actual_types)) blank)
      as [[t0 w0]|]; [|discriminate].
    injection Hpre as ->. simpl tournament.
    rewrite (proj2 (Nat.eqb_eq _ _) Hsig).
    now rewrite (examine_better actual_types ins (length pre) C t needed). }
  apply (call_selects s args w _ C Hlim Hc Hr Hp eq_refl eq_refl).
Qed.

(** *** The two ways a call can end *)

Lemma converted_by_length needed :
  forall args, length needed = length args ->
               length (converted_by needed args) = length args.
Proof.
  induction needed as [|r needed IH]; intros [|v args] H; simpl in *;
    try discriminate; auto.
Qed.

Lemma dispatch_mismatch m needed args w :
  length needed <> length args ->
  dispatch m needed args w = (Undefined, w).
Proof.
  intros H. unfold dispatch, convertSequence. rewrite length_map.
  destruct (length args =? length needed) eqn:E; [|reflexivity].
  apply Nat.eqb_eq in E. congruence.
Qed.

(** Either the call ends in the selection -- nothing is converted, invoked
    or released and the cache is as before -- or it dispatches to one
    registered candidate with the routes the table gives for its signature:
    on a hit with the cache as before, on a miss with the candidate's index
    remembered under the fingerprint. *)
Lemma call_cases s args w :
  (exists o evs,
      call s args w = (o, log evs w) /\
      (forall r, o <> Returned r) /\
      (forall z, o <> Thrown (NativeException z)) /\
      invoked evs = [] /\ trashed evs = [] /\
      sink_released evs = [] /\ memory_released evs = []) \/
  (length args <= ARGUMENT_ARRAY_LIMIT /\
   exists m needed w0 evs0 index,
     call s args w = dispatch m needed args w0 /\
     length needed = length args /\
     bestSequenceRoute (map detectType args) (map detectInsight args) (signature m)
     = Some needed /\
     nth_error (m_alternatives s) index = Some m /\
     trace w0 = trace w ++ evs0 /\
     invoked evs0 = [] /\ trashed evs0 = [] /\
     sink_released evs0 = [] /\ memory_released evs0 = [] /\
     ((index = Z.to_nat (Cache.recall (cache w) (this s) (length args)
                                      (map detectType args) (map detectInsight args)) /\
       Cache.recall (cache w) (this s) (length args)
                    (map detectType args) (map detectInsight args)
       <> Cache.MISSED /\
       cache w0 = cache w /\
       queried evs0 = [signature m]) \/
      (Cache.recall (cache w) (this s) (length args)
                    (map detectType args) (map detectInsight args)
       = Cache.MISSED /\
       cache w0 = Cache.remember (cache w) (this s) (length args)
                    (map detectType args) (map detectInsight args)
                    (Z.of_nat index) /\
       queried evs0 =
       map signature
           (filter (fun alt => length (signature alt) =? length args)
                   (m_alternatives s))))).
Proof.
  destruct (le_lt_dec (length args) ARGUMENT_ARRAY_LIMIT) as [Hlim|Hlim].
  2:{ left. rewrite (call_over_limit s args w Hlim).
      exists (Thrown ArgumentArrayLimitExceededException), [].
      rewrite log_nil. repeat split; try discriminate. }
  assert (Hi : length (map detectInsight args) = length (map detectType args))
    by now rewrite !length_map.
  destruct (Z.eq_dec (Cache.recall (cache w) (this s) (length args)
                        (map detectType args) (map detectInsight args))
                     Cache.MISSED) as [Hv|Hv].
  - destruct (resolve (map detectType args) (map detectInsight args)
                      (m_alternatives s)) as [t|] eqn:Hr.
    2:{ left. exists Undefined, (fingerprint_events args).
        split.
        - unfold call, call_body. cbv zeta.
          rewrite (proj2 (Nat.ltb_ge _ _) Hlim). simpl cache.
          rewrite Hv, Z.eqb_refl. simpl negb. cbv iota.
          now rewrite tournament_in_call, Hr.
        - unfold memory_released.
          repeat split; try discriminate; now read_trace. }
    destruct (conversionPossible (lightweight t)) eqn:Hp.
    2:{ left. rewrite (call_miss_nomatch _ _ _ _ Hlim Hv Hr (or_introl Hp)).
        eexists. eexists. split; [reflexivity|]. unfold memory_released.
        repeat split; try discriminate; now read_trace. }
    destruct (lightest t) as [m|] eqn:Hl.
    2:{ left. rewrite (call_miss_nomatch _ _ _ _ Hlim Hv Hr (or_intror Hl)).
        eexists. eexists. split; [reflexivity|]. unfold memory_released.
        repeat split; try discriminate; now read_trace. }
    destruct (ambiguity_alert t) eqn:Ha.
    { left. rewrite (call_miss_ambiguous _ _ _ _ _ Hlim Hv Hr Hp Hl Ha).
      eexists. eexists. split; [reflexivity|]. unfold memory_released.
      repeat split; try discriminate; now read_trace. }
    right. split; [exact Hlim|].
    pose proof (resolve_inv _ _ _ _ Hi Hr) as (_ & _ & Hm). rewrite Hl in Hm.
    destruct Hm as (index & needed & Hidx & Hnth & Hsig & Hb & Hroutes & _).
    pose proof (bestSequenceRoute_length _ _ _ _ Hi Hsig Hb) as Hn.
    rewrite length_map in Hn.
    exists m, needed. eexists.
    exists (fingerprint_events args ++ table_queries (length args) (m_alternatives s)).
    exists index.
    split; [apply (call_miss_selected _ _ _ _ _ _ Hlim Hv Hr Hp Hl Ha Hroutes)|].
    split; [exact Hn|]. split; [exact Hb|]. split; [exact Hnth|].
    split; [reflexivity|]. unfold memory_released.
    split; [now read_trace|]. split; [now read_trace|].
    split; [now read_trace|]. split; [now read_trace|].
    right. simpl cache. rewrite Hidx.
    split; [exact Hv|]. split; [reflexivity|]. now read_trace.
  - destruct (nth_error (m_alternatives s)
                (Z.to_nat (Cache.recall (cache w) (this s) (length args)
                             (map detectType args) (map detectInsight args))))
      as [m|] eqn:Hnth.
    2:{ left. exists Undefined, (fingerprint_events args). split.
        - unfold call, call_body. cbv zeta.
          rewrite (proj2 (Nat.ltb_ge _ _) Hlim). simpl cache.
          now rewrite (proj2 (Z.eqb_neq _ _) Hv), Hnth.
        - unfold memory_released.
          repeat split; try discriminate; now read_trace. }
    destruct (bestSequenceRoute (map detectType args) (map detectInsight args)
                                (signature m)) as [needed|] eqn:Hb.
    2:{ left. exists (Thrown NoApplicableConversionException),
                     (fingerprint_events args ++ [BestSequenceRoute (signature m)]).
        split.
        - unfold call, call_body. cbv zeta.
          rewrite (proj2 (Nat.ltb_ge _ _) Hlim). simpl cache.
          rewrite (proj2 (Z.eqb_neq _ _) Hv), Hnth, Hb. simpl.
          unfold leave_scope, cleanUp. simpl. now rewrite log_nil, log_log.
        - unfold memory_released.
          repeat split; try discriminate; now read_trace. }
    pose proof (call_hit s args w m needed Hlim Hv Hnth Hb) as Hcall.
    destruct (Nat.eq_dec (length needed) (length args)) as [Hn|Hn].
    2:{ left. rewrite Hcall, (dispatch_mismatch _ _ _ _ Hn).
        eexists. eexists. split; [reflexivity|]. unfold memory_released.
        repeat split; try discriminate; now read_trace. }
    right. split; [exact Hlim|].
    exists m, needed. eexists.
    exists (fingerprint_events args ++ [BestSequenceRoute (signature m)]).
    exists (Z.to_nat (Cache.recall (cache w) (this s) (length args)
                        (map detectType args) (map detectInsight args))).
    split; [exact Hcall|]. split; [exact Hn|]. split; [exact Hb|].
    split; [exact Hnth|]. split; [reflexivity|]. unfold memory_released.
    split; [now read_trace|]. split; [now read_trace|].
    split; [now read_trace|]. split; [now read_trace|].
    left. simpl cache.
    split; [reflexivity|]. split; [exact Hv|]. split; [reflexivity|].
    now read_trace.
Qed.

(** X13. A call that fails in the selection -- with any exception but one
    of the native callable -- leaves the cache as it was (no failure is
    memoised), and has converted no argument, invoked nothing and released
    nothing. *)
Theorem selection_failure_quiet s args w e w' :
  call s args w = (Thrown e, w') ->
  (forall z, e <> NativeException z) ->
  cache w' = cache w /\
  exists evs,
    trace w' = trace w ++ evs /\
    invoked evs = [] /\ trashed evs = [] /\ sink_released evs = [].
Proof.
  intros H He.
  destruct (call_cases s args w)
    as [(o & evs & Hcall & _ & _ & Hinv & Htr & Hsr & _)
       |(_ & m & needed & w0 & evs0 & index & Hcall & Hn & _)].
  - rewrite Hcall in H. injection H as -> <-. split; [reflexivity|].
    exists evs. auto.
  - exfalso. rewrite Hcall in H.
    destruct (dispatch_spec m needed args w0 Hn) as (o & edge & Hd & _ & Ho).
    rewrite Hd in H. injection H as -> _.
    destruct Ho as [[r Ho]|[z Ho]]; [discriminate|].
    injection Ho as ->. now apply (He z).
Qed.

(** X14. Whatever the cache holds, a call invokes at most one native
    function, and only a candidate registered in the set: it is handed, in
    positional order, the actuals converted along the routes the table gives
    for that candidate's signature. A call that invokes nothing returns no
    result. *)
Theorem one_registered_candidate s args w :
  exists evs,
    trace (snd (call s args w)) = trace w ++ evs /\
    ((invoked evs = [] /\ forall r, fst (call s args w) <> Returned r) \/
     (exists m needed,
         invoked evs = [m] /\
         In m (m_alternatives s) /\
         bestSequenceRoute (map detectType args) (map detectInsight args)
                           (signature m) = Some needed /\
         In (Invoke m (converted_by needed args)) evs /\
         length (converted_by needed args) = length args)).
Proof.
  destruct (call_cases s args w)
    as [(o & evs & Hcall & Hr & _ & Hinv & _)
       |(_ & m & needed & w0 & evs0 & index & Hcall & Hn & Hb & Hnth & Htr0
         & Hinv0 & _)].
  - rewrite Hcall. exists evs. split; [reflexivity|]. left. auto.
  - rewrite Hcall.
    destruct (dispatch_spec m needed args w0 Hn) as (o & edge & Hd & Hedge & _).
    rewrite Hd. simpl snd. simpl trace. rewrite Htr0, <- app_assoc.
    eexists. split; [reflexivity|]. right. exists m, needed.
    split.
    { destruct Hedge as [-> | (v & ->)]; read_trace;
        unfold invoked in Hinv0; now rewrite Hinv0. }
    split; [eapply nth_error_In; eauto|]. split; [exact Hb|].
    split; [|now apply converted_by_length].
    apply in_or_app. right. apply in_or_app. right. simpl. auto.
Qed.

(** X15. The result of a call is the native result, passed through the edge
    conversion of the candidate's return type when one is registered: without
    one the native result comes back as it is and nothing is released; with
    one the converted value comes back and the raw result is released, once. *)
Theorem returned_value_edge s args w r w1 :
  call s args w = (Returned r, w1) ->
  exists m conv evs,
    trace w1 = trace w ++ evs /\
    In (Invoke m conv) evs /\
    match getEdgeConversion (returnType m) with
    | None => CFunction_call m conv = inl r /\ memory_released evs = []
    | Some exit =>
        exists raw, CFunction_call m conv = inl raw /\ r = exit raw /\
                    memory_released evs = [raw]
    end.
Proof.
  intros H.
  destruct (call_cases s args w)
    as [(o & evs & Hcall & Hr & _)
       |(_ & m & needed & w0 & evs0 & index & Hcall & Hn & Hb & Hnth & Htr0
         & _ & _ & _ & Hmem0 & _)].
  - rewrite Hcall in H. injection H as -> _. now elim (Hr r).
  - rewrite Hcall in H. unfold dispatch in H.
    rewrite convertSequence_routes in H by exact Hn.
    exists m, (converted_by needed args).
    destruct (CFunction_call m (converted_by needed args)) as [raw|raised];
      [|discriminate].
    unfold applyEdgeConversions, leave_scope, cleanUp in H.
    unfold memory_released in *.
    destruct (getEdgeConversion (returnType m)) as [exit|];
      simpl in H; injection H as <- <-; simpl trace; rewrite Htr0;
      rewrite <- !app_assoc; eexists; (split; [reflexivity|]);
      (split; [apply in_or_app; right; apply in_or_app; right; simpl; auto|]).
    + exists raw. repeat split. read_trace. now rewrite Hmem0.
    + split; [reflexivity|]. read_trace. now rewrite Hmem0.
Qed.


(** After a call that dispatched, the cache answers the fingerprint with
    the position of the candidate it invoked, and the next call with that
    fingerprint, on any set at the same address that still has the
    candidate at that position, is a hit on it. *)
Lemma next_call_hits s s' args args' w o w1 :
  (Z.of_nat (length (m_alternatives s)) <= Cache.MISSED)%Z ->
  call s args w = (o, w1) ->
  (exists r, o = Returned r) \/ (exists z, o = Thrown (NativeException z)) ->
  this s' = this s ->
  (forall index m, nth_error (m_alternatives s) index = Some m ->
                   nth_error (m_alternatives s') index = Some m) ->
  map detectType args' = map detectType args ->
  map detectInsight args' = map detectInsight args ->
  exists m needed evs1 evs2,
    trace w1 = trace w ++ evs1 /\ invoked evs1 = [m] /\
    In m (m_alternatives s) /\
    Cache.recall (cache w1) (this s) (length args')
                 (map detectType args') (map detectInsight args') <> Cache.MISSED /\
    bestSequenceRoute (map detectType args') (map detectInsight args') (signature m)
    = Some needed /\
    trace (snd (call s' args' w1)) = trace w1 ++ evs2 /\
    queried evs2 = [signature m] /\
    invoked evs2 = [m] /\
    In (Invoke m (converted_by needed args')) evs2 /\
    cache (snd (call s' args' w1)) = cache w1.
Proof.
  intros Hbound H Ho Hthis Hkeep Ht Hi.
  destruct (call_cases s args w)
    as [(o' & evs & Hcall & Hr & Hz & _)
       |(Hlim & m & needed & w0 & evs0 & index & Hcall & Hn & Hb & Hnth & Htr0
         & Hinv0 & _ & _ & _ & Hcase)].
  { exfalso. rewrite Hcall in H. injection H as -> _.
    destruct Ho as [[r ->]|[z ->]]; [now elim (Hr r)|now elim (Hz z)]. }
  rewrite Hcall in H.
  destruct (dispatch_spec m needed args w0 Hn) as (o' & edge & Hd & Hedge & _).
  rewrite Hd in H. injection H as _ Hw1.
  assert (Hcache : cache w1 = cache w0) by (rewrite <- Hw1; reflexivity).
  assert (Hlen : length args' = length args).
  { rewrite <- (length_map detectType args'), Ht. apply length_map. }
  assert (Hlim' : length args' <= ARGUMENT_ARRAY_LIMIT) by (rewrite Hlen; exact Hlim).
  assert (Hrec : Cache.recall (cache w0) (this s) (length args)
                              (map detectType args) (map detectInsight args)
                 <> Cache.MISSED /\
                 nth_error (m_alternatives s)
                           (Z.to_nat (Cache.recall (cache w0) (this s) (length args)
                                        (map detectType args)
                                        (map detectInsight args)))
                 = Some m).
  { destruct Hcase as [(Hidx & Hv & Hc0 & _)|(Hv & Hc0 & _)]; rewrite Hc0.
    - split; [exact Hv|]. now rewrite <- Hidx.
    - assert (Hrr : Cache.recall
                      (Cache.remember (cache w) (this s) (length args)
                         (map detectType args) (map detectInsight args)
                         (Z.of_nat index))
                      (this s) (length args) (map detectType args)
                      (map detectInsight args) = Z.of_nat index).
      { rewrite <- (length_map detectType args) at 1 2.
        apply recall_remember_same. now rewrite !length_map. }
      rewrite Hrr, Nat2Z.id. split; [|exact Hnth].
      assert (index < length (m_alternatives s))
        by (apply nth_error_Some; congruence).
      lia. }
  destruct Hrec as [Hv1 Hnth1].
  assert (Hv' : Cache.recall (cache w1) (this s') (length args')
                             (map detectType args') (map detectInsight args')
                = Cache.recall (cache w0) (this s) (length args)
                               (map detectType args) (map detectInsight args))
    by (rewrite Ht, Hi, Hlen, Hcache, Hthis; reflexivity).
  assert (Hb' : bestSequenceRoute (map detectType args') (map detectInsight args')
                                  (signature m) = Some needed)
    by (rewrite Ht, Hi; exact Hb).
  assert (Hcall' :
            call s' args' w1
            = dispatch m needed args'
                (log (fingerprint_events args' ++ [BestSequenceRoute (signature m)])
                     w1)).
  { apply call_hit; auto; rewrite Hv'; auto. }
  destruct (dispatch_spec m needed args'
              (log (fingerprint_events args' ++ [BestSequenceRoute (signature m)])
                   w1))
    as (o2 & edge' & Hd' & Hedge' & _); [congruence|].
  rewrite Hcall', Hd', log_log. simpl snd.
  exists m, needed. eexists. eexists.
  split. { rewrite <- Hw1. simpl. rewrite Htr0, <- app_assoc. reflexivity. }
  split. { destruct Hedge as [-> | (v & ->)]; read_trace;
           unfold invoked in Hinv0; now rewrite Hinv0. }
  split; [eapply nth_error_In; eauto|].
  split. { rewrite <- Hthis, Hv'. exact Hv1. }
  split; [exact Hb'|]. split; [reflexivity|].
  split. { destruct Hedge' as [-> | (v & ->)]; now read_trace. }
  split. { destruct Hedge' as [-> | (v & ->)]; now read_trace. }
  split; [|reflexivity].
  apply in_or_app. right. apply in_or_app. right. simpl. auto.
Qed.

(** X17. The winner is remembered before it is invoked: when the native
    callable raises, the choice is in the cache all the same, and the next
    call with the same detected types and insights is a hit that asks the
    table about that candidate only and invokes it again. *)
Theorem native_failure_still_cached s args args' w z w1 :
  (Z.of_nat (length (m_alternatives s)) <= Cache.MISSED)%Z ->
  call s args w = (Thrown (NativeException z), w1) ->
  map detectType args' = map detectType args ->
  map detectInsight args' = map detectInsight args ->
  exists m evs1 evs2,
    trace w1 = trace w ++ evs1 /\ invoked evs1 = [m] /\
    Cache.recall (cache w1) (this s) (length args')
                 (map detectType args') (map detectInsight args') <> Cache.MISSED /\
    trace (snd (call s args' w1)) = trace w1 ++ evs2 /\
    queried evs2 = [signature m] /\
    invoked evs2 = [m] /\
    cache (snd (call s args' w1)) = cache w1.
Proof.
  intros Hbound H Ht Hi.
  destruct (next_call_hits s s args args' w _ w1 Hbound H
                           (or_intror (ex_intro _ z eq_refl)) eq_refl
                           (fun _ _ E => E) Ht Hi)
    as (m & needed & evs1 & evs2 & H1 & H2 & _ & H3 & _ & H4 & H5 & H6 & _ & H7).
  exists m, evs1, evs2. auto 10.
Qed.


(** X19. After [forceRecompute] the next call runs the whole tournament:
    with at most twelve actuals, a call that has a defined result asks the
    table once for each registered candidate of the call's arity, in
    registration order. *)
Theorem forceRecompute_full_tournament s args w :
  length args <= ARGUMENT_ARRAY_LIMIT ->
  fst (call s args (forceRecompute w)) <> Undefined ->
  exists evs,
    trace (snd (call s args (forceRecompute w))) = trace w ++ evs /\
    queried evs =
    map signature (filter (fun alt => length (signature alt) =? length args)
                          (m_alternatives s)).
Proof.
  intros Hlim Hdef.
  destruct (call_cases s args (forceRecompute w))
    as [(o & evs & Hcall & Hr' & Hz' & _)
       |(_ & m & needed & w0 & evs0 & index & Hcall & Hn & _ & _ & Htr0
         & _ & _ & _ & _ & Hcase)].
  - assert (Hi : length (map detectInsight args) = length (map detectType args))
      by now rewrite !length_map.
    assert (Hv : Cache.recall (cache (forceRecompute w)) (this s) (length args)
                   (map detectType args) (map detectInsight args) = Cache.MISSED)
      by reflexivity.
    destruct (resolve (map detectType args) (map detectInsight args)
                      (m_alternatives s)) as [t|] eqn:Hr.
    2:{ exfalso. apply Hdef. unfold call, call_body. cbv zeta.
        rewrite (proj2 (Nat.ltb_ge _ _) Hlim). simpl cache.
        unfold Cache.flush, Cache.recall. simpl Cache.internal_recall.
        rewrite Z.eqb_refl. simpl negb. cbv iota.
        now rewrite tournament_in_call, Hr. }
    destruct (conversionPossible (lightweight t)) eqn:Hp.
    2:{ rewrite (call_miss_nomatch _ _ _ _ Hlim Hv Hr (or_introl Hp)).
        eexists. split; [reflexivity|]. now read_trace. }
    destruct (lightest t) as [m|] eqn:Hl.
    2:{ rewrite (call_miss_nomatch _ _ _ _ Hlim Hv Hr (or_intror Hl)).
        eexists. split; [reflexivity|]. now read_trace. }
    destruct (ambiguity_alert t) eqn:Ha.
    { rewrite (call_miss_ambiguous _ _ _ _ _ Hlim Hv Hr Hp Hl Ha).
      eexists. split; [reflexivity|]. now read_trace. }
    exfalso.
    pose proof (resolve_inv _ _ _ _ Hi Hr) as (_ & _ & Hm). rewrite Hl in Hm.
    destruct Hm as (idx & needed & _ & _ & Hsig & Hb & Hroutes & _).
    pose proof (bestSequenceRoute_length _ _ _ _ Hi Hsig Hb) as Hn.
    rewrite length_map in Hn.
    rewrite (call_miss_selected _ _ _ _ _ _ Hlim Hv Hr Hp Hl Ha Hroutes) in Hcall.
    destruct (dispatch_spec m needed args
                {| cache := Cache.remember (cache (forceRecompute w)) (this s)
                              (length args) (map detectType args)
                              (map detectInsight args) (cached_alt t);
                   trace := trace (forceRecompute w) ++ fingerprint_events args
                            ++ table_queries (length args) (m_alternatives s) |} Hn)
      as (o2 & edge & Hd & _ & Ho).
    rewrite Hd in Hcall. injection Hcall as <- _.
    destruct Ho as [[r ->]|[z ->]]; [now elim (Hr' r)|now elim (Hz' z)].
  - destruct Hcase as [(_ & Hv & _)|(_ & _ & Hq)]; [now elim Hv|].
    rewrite Hcall.
    destruct (dispatch_spec m needed args w0 Hn) as (o & edge & Hd & Hedge & _).
    rewrite Hd. simpl snd. simpl trace. rewrite Htr0. simpl trace.
    rewrite <- app_assoc. eexists. split; [reflexivity|].
    unfold queried in *.
    destruct Hedge as [-> | (v & ->)]; read_trace; now rewrite Hq, ?app_nil_r.
Qed.

(** *** Registration and lookup by signature *)



(** X20. [seekAlternative] answers the first-registered candidate whose
    signature is the prototype, element for element, and the null handle
    exactly when no registered candidate has that signature. *)
Theorem seekAlternative_first s prototype :
  match seekAlternative s prototype with
  | Some alt =>
      exists pre post,
        m_alternatives s = pre ++ alt :: post /\
        signature alt = prototype /\
        forall x, In x pre -> signature x <> prototype
  | None => forall x, In x (m_alternatives s) -> signature x <> prototype
  end.
Proof.
  unfold seekAlternative.
  induction (m_alternatives s) as [|alt alts IH]; simpl.
  - intros x [].
  - destruct (list_eq_dec Z.eq_dec (signature alt) prototype) as [E|E].
    + exists [], alts. split; [reflexivity|]. split; [exact E|]. intros x [].
    + destruct (seek alts prototype) as [found|].
      * destruct IH as (pre & post & -> & Hsig & Hpre).
        exists (alt :: pre), post. split; [reflexivity|]. split; [exact Hsig|].
        intros x [<-|Hx]; auto.
      * intros x [<-|Hx]; auto.
Qed.


(** *** The frontend *)

(** X22. With at most twelve actuals a call starts by showing every actual
    to the frontend, its type and then its insight, in positional order, and
    never turns to the frontend again. *)
Theorem fingerprint_first_and_once s args w :
  length args <= ARGUMENT_ARRAY_LIMIT ->
  exists rest,
    trace (snd (call s args w)) = trace w ++ fingerprint_events args ++ rest /\
    frontend_seen rest = [].
Proof.
  intros Hlim.
  assert (Hi : length (map detectInsight args) = length (map detectType args))
    by now rewrite !length_map.
  assert (Hdispatch : forall m needed evs0,
             frontend_seen evs0 = [] ->
             exists rest,
               trace (snd (dispatch m needed args
                                    (log (fingerprint_events args ++ evs0) w)))
               = trace w ++ fingerprint_events args ++ rest /\
               frontend_seen rest = []).
  { intros m needed evs0 H0.
    destruct (Nat.eq_dec (length needed) (length args)) as [Hn|Hn].
    - destruct (dispatch_spec m needed args
                  (log (fingerprint_events args ++ evs0) w) Hn)
        as (o & edge & -> & Hedge & _).
      simpl. rewrite <- ?app_assoc. eexists. split; [reflexivity|].
      unfold frontend_seen in *. rewrite flat_map_app, H0.
      destruct Hedge as [-> | (v & ->)]; now read_trace.
    - rewrite (dispatch_mismatch _ _ _ _ Hn). simpl. rewrite <- ?app_assoc.
      eauto. }
  destruct (Z.eq_dec (Cache.recall (cache w) (this s) (length args)
                        (map detectType args) (map detectInsight args))
                     Cache.MISSED) as [Hv|Hv].
  - destruct (resolve (map detectType args) (map detectInsight args)
                      (m_alternatives s)) as [t|] eqn:Hr.
    2:{ exists []. split; [|reflexivity].
        unfold call, call_body. cbv zeta.
        rewrite (proj2 (Nat.ltb_ge _ _) Hlim). simpl cache.
        rewrite Hv, Z.eqb_refl. simpl negb. cbv iota.
        rewrite tournament_in_call, Hr. simpl. now rewrite ?app_nil_r. }
    destruct (conversionPossible (lightweight t)) eqn:Hp.
    2:{ rewrite (call_miss_nomatch _ _ _ _ Hlim Hv Hr (or_introl Hp)).
        simpl. rewrite <- ?app_assoc. eexists. split; [reflexivity|].
        unfold frontend_seen. now read_trace. }
    destruct (lightest t) as [m|] eqn:Hl.
    2:{ rewrite (call_miss_nomatch _ _ _ _ Hlim Hv Hr (or_intror Hl)).
        simpl. rewrite <- ?app_assoc. eexists. split; [reflexivity|].
        unfold frontend_seen. now read_trace. }
    destruct (ambiguity_alert t) eqn:Ha.
    { rewrite (call_miss_ambiguous _ _ _ _ _ Hlim Hv Hr Hp Hl Ha).
      simpl. rewrite <- ?app_assoc. eexists. split; [reflexivity|].
      unfold frontend_seen. now read_trace. }
    pose proof (resolve_inv _ _ _ _ Hi Hr) as (_ & _ & Hm). rewrite Hl in Hm.
    destruct Hm as (index & needed & _ & _ & Hsig & Hb & Hroutes & _).
    pose proof (bestSequenceRoute_length _ _ _ _ Hi Hsig Hb) as Hn.
    rewrite length_map in Hn.
    rewrite (call_miss_selected _ _ _ _ _ _ Hlim Hv Hr Hp Hl Ha Hroutes).
    match goal with
    | |- context [dispatch m needed args ?w0] =>
        destruct (dispatch_spec m needed args w0 Hn) as (o & edge & -> & Hedge & _)
    end.
    simpl. rewrite <- ?app_assoc. eexists. split; [reflexivity|].
    unfold frontend_seen.
    destruct Hedge as [-> | (v & ->)]; now read_trace.
  - destruct (nth_error (m_alternatives s)
                (Z.to_nat (Cache.recall (cache w) (this s) (length args)
                             (map detectType args) (map detectInsight args))))
      as [m|] eqn:Hnth.
    2:{ exists []. split; [|reflexivity].
        unfold call, call_body. cbv zeta.
        rewrite (proj2 (Nat.ltb_ge _ _) Hlim). simpl cache.
        rewrite (proj2 (Z.eqb_neq _ _) Hv), Hnth. simpl. now rewrite ?app_nil_r. }
    destruct (bestSequenceRoute (map detectType args) (map detectInsight args)
                                (signature m)) as [needed|] eqn:Hb.
    2:{ exists [BestSequenceRoute (signature m)]. split; [|reflexivity].
        unfold call, call_body. cbv zeta.
        rewrite (proj2 (Nat.ltb_ge _ _) Hlim). simpl cache.
        rewrite (proj2 (Z.eqb_neq _ _) Hv), Hnth, Hb. simpl.
        now rewrite ?app_nil_r, <- ?app_assoc. }
    rewrite (call_hit s args w m needed Hlim Hv Hnth Hb).
    apply Hdispatch. reflexivity.
Qed.

End Properties.

(** ** The properties on the concrete instance *)

Import Demo.

Lemma demo_laws : WeightLaws weights.
Proof.
  split.
  - intros [x|] [y|]; simpl; try discriminate; auto.
    intros H. apply Nat.ltb_lt in H. apply Nat.ltb_ge. lia.
  - intros [x|]; reflexivity.
  - intros [x|]; simpl; split; auto.
Qed.

(** An Int actual with insight 5 only ever gets routes of possible weight. *)
Lemma demo_int_routes_possible : routes_possible [1%Z] [5%Z].
Proof.
  intros formal needed H. destruct formal as [|f formal]; simpl in H.
  - injection H as <-. reflexivity.
  - unfold demo_single in H.
    destruct (1 =? f)%Z eqn:E1; simpl in H.
    + apply Z.eqb_eq in E1. subst f.
      destruct formal; injection H as <-; reflexivity.
    + destruct (f =? 2)%Z eqn:E2; simpl in H.
      * apply Z.eqb_eq in E2. subst f.
        destruct formal; injection H as <-; reflexivity.
      * destruct (f =? 7)%Z eqn:E7; simpl in H; [|discriminate].
        apply Z.eqb_eq in E7. subst f.
        destruct formal; injection H as <-; reflexivity.
Qed.

Lemma compareAlternatives_lattice_witness :
  compareAlternatives (CT := table) [Finite 1; Finite 0]
                      [int_as_int; int_to_double] [5%Z; 5%Z]
  = Some OL_AMBIGUOUS.
Proof.
  apply (compareAlternatives_lattice (CT := table) (@wlt_asym weights demo_laws)
           [Finite 1; Finite 0]
           [ int_as_int; int_to_double ]
           [5%Z; 5%Z] eq_refl eq_refl).
  - discriminate.
  - exists 1, (Finite 0), (Finite 1). simpl. auto.
  - exists 0, (Finite 1), (Finite 0). simpl. auto.
Defined.

Lemma tournament_adopts_better_witness :
  tournament [1%Z] [5%Z] 1 ([f_double] ++ [f_int]) 0 (tournament_start 1) blank
  = Some (standing false f_int 1 [int_as_int] [Finite 0],
          log [BestSequenceRoute [1%Z]] (log [BestSequenceRoute [2%Z]] blank)).
Proof.
  apply (tournament_adopts_better [1%Z] [5%Z] [f_double] f_int
           (standing false f_double 0 [int_to_double] [Finite 1])
           blank (log [BestSequenceRoute [2%Z]] blank) [int_as_int]);
    reflexivity.
Defined.

Lemma sink_released_once_witness :
  exists evs,
    trace (snd (call (set_of [f_double; f_long]) [105%Z] blank)) = trace blank ++ evs /\
    sink_released evs = trashed evs.
Proof.
  apply (sink_released_once (set_of [f_double; f_long]) [105%Z] blank).
  vm_compute. discriminate.
Defined.

Lemma arity_gate_first_witness :
  call (set_of [f_int]) (repeat 105%Z 13) blank
  = (Thrown ArgumentArrayLimitExceededException, blank) /\
  forall evs,
    trace (snd (call (set_of [f_int]) (repeat 105%Z 13) blank)) = trace blank ++ evs ->
    frontend_seen evs = [].
Proof.
  apply (arity_gate_first (set_of [f_int]) (repeat 105%Z 13) blank).
  unfold ARGUMENT_ARRAY_LIMIT. simpl. lia.
Defined.

Lemma equivalent_pair_ambiguous_witness :
  fst (call {| this := 4096; m_alternatives := [g_int_vec5; g_int_vec6] |}
            [105%Z; 401%Z] blank)
  = Thrown OverloadingAmbiguityException /\
  fst (call {| this := 4097; m_alternatives := [g_int_vec6; g_int_vec5] |}
            [105%Z; 401%Z] blank)
  = Thrown OverloadingAmbiguityException.
Proof.
  apply (equivalent_pair_ambiguous (CT := table) demo_laws 4096 4097
           g_int_vec5 g_int_vec6
           [int_as_int; list_to_vec5]
           [int_as_int; list_to_vec6]
           [105%Z; 401%Z] blank blank);
    try reflexivity.
  - unfold ARGUMENT_ARRAY_LIMIT. simpl. lia.
  - apply cache_sound_empty.
  - apply cache_sound_empty.
Defined.

(** C5 as stated fails on the code, in two ways. Two candidates that are
    not identical and whose weight vectors compare EQUIVALENT, but with an
    impossible weight (a List actual under insight 0): the verdict tests
    [conversionPossible] first and [call] raises
    [OverloadingNoMatchException]. And two such candidates of arity 13:
    [call] raises [ArgumentArrayLimitExceededException]. *)
Lemma equivalent_pair_counterexample :
  (length (signature g_int_vec5) = 2 /\ length (signature g_int_vec6) = 2 /\
   identicalAlternatives g_int_vec5 g_int_vec6 = false /\
   bestSequenceRoute (CT := table) [1%Z; 4%Z] [5%Z; 0%Z] (signature g_int_vec5)
   = Some [int_as_int; list_to_vec5] /\
   bestSequenceRoute (CT := table) [1%Z; 4%Z] [5%Z; 0%Z] (signature g_int_vec6)
   = Some [int_as_int; list_to_vec6] /\
   compareAlternatives
     (weights_of (CT := table) [int_as_int; list_to_vec5] [5%Z; 0%Z])
     [int_as_int; list_to_vec6] [5%Z; 0%Z] = Some OL_EQUIVALENT /\
   fst (call (set_of [g_int_vec5; g_int_vec6]) [105%Z; 400%Z] blank)
   = Thrown OverloadingNoMatchException /\
   fst (call (set_of [g_int_vec6; g_int_vec5]) [105%Z; 400%Z] blank)
   = Thrown OverloadingNoMatchException) /\
  (let wide5 := {| signature := repeat 1%Z 12 ++ [5%Z]; returnType := 1%Z;
                   CFunction_call := native 41 |} in
   let wide6 := {| signature := repeat 1%Z 12 ++ [6%Z]; returnType := 1%Z;
                   CFunction_call := native 42 |} in
   let args := repeat 105%Z 12 ++ [401%Z] in
   length (signature wide5) = length args /\ length (signature wide6) = length args /\
   identicalAlternatives wide5 wide6 = false /\
   (exists rA rB,
       bestSequenceRoute (CT := table) (map detectType args) (map detectInsight args)
                         (signature wide5) = Some rA /\
       bestSequenceRoute (CT := table) (map detectType args) (map detectInsight args)
                         (signature wide6) = Some rB /\
       conversionPossible (weights_of (CT := table) rA (map detectInsight args))
       = true /\
       conversionPossible (weights_of (CT := table) rB (map detectInsight args))
       = true /\
       compareAlternatives (CT := table)
                           (weights_of (CT := table) rA (map detectInsight args)) rB
                           (map detectInsight args) = Some OL_EQUIVALENT) /\
   fst (call (set_of [wide5; wide6]) args blank)
   = Thrown ArgumentArrayLimitExceededException).
Proof.
  split.
  - repeat split; reflexivity.
  - cbv zeta. repeat split; try reflexivity.
    eexists. eexists. repeat split; vm_compute; reflexivity.
Qed.

Lemma second_call_hits_witness :
  exists m needed evs1 evs2,
    trace (snd (call (set_of [f_int; f_double]) [105%Z] blank)) = trace blank ++ evs1 /\
    invoked evs1 = [m] /\
    Cache.recall (cache (snd (call (set_of [f_int; f_double]) [105%Z] blank)))
                 (this (set_of [f_int; f_double])) (length [105%Z])
                 (map detectType [105%Z]) (map detectInsight [105%Z])
    <> Cache.MISSED /\
    nth_error (m_alternatives (set_of [f_int; f_double]))
              (Z.to_nat
                 (Cache.recall
                    (cache (snd (call (set_of [f_int; f_double]) [105%Z] blank)))
                    (this (set_of [f_int; f_double])) (length [105%Z])
                    (map detectType [105%Z]) (map detectInsight [105%Z])))
    = Some m /\
    bestSequenceRoute (CT := table) (map detectType [105%Z]) (map detectInsight [105%Z])
                      (signature m) = Some needed /\
    trace (snd (call (set_of [f_int; f_double]) [105%Z]
                     (snd (call (set_of [f_int; f_double]) [105%Z] blank))))
    = trace (snd (call (set_of [f_int; f_double]) [105%Z] blank)) ++ evs2 /\
    queried evs2 = [signature m] /\
    invoked evs2 = [m] /\
    In (Invoke m (converted_by (CT := table) needed [105%Z])) evs2 /\
    cache (snd (call (set_of [f_int; f_double]) [105%Z]
                     (snd (call (set_of [f_int; f_double]) [105%Z] blank))))
    = cache (snd (call (set_of [f_int; f_double]) [105%Z] blank)).
Proof.
  apply (second_call_hits (set_of [f_int; f_double]) [105%Z] [105%Z] blank 11%Z
           (snd (call (set_of [f_int; f_double]) [105%Z] blank))).
  - vm_compute. discriminate.
  - reflexivity.
  - reflexivity.
  - reflexivity.
Defined.

Lemma empty_set_no_match_witness :
  fst (call (set_of []) [105%Z] blank) = Thrown OverloadingNoMatchException /\
  (exists t, resolve (map detectType [105%Z]) (map detectInsight [105%Z])
                     (m_alternatives (set_of [])) = Some t /\ lightest t = None) /\
  forall evs, trace (snd (call (set_of []) [105%Z] blank)) = trace blank ++ evs ->
              queried evs = [].
Proof.
  apply (empty_set_no_match (set_of []) [105%Z] blank).
  - reflexivity.
  - unfold ARGUMENT_ARRAY_LIMIT. simpl. lia.
  - apply cache_sound_empty.
Defined.

Lemma strict_domination_wins_witness :
  (exists evs,
      trace (snd (call {| this := 4096; m_alternatives := [f_int; f_double] |}
                       [105%Z] blank))
      = trace blank ++ evs /\ invoked evs = [f_int] /\
      ((exists r, fst (call {| this := 4096; m_alternatives := [f_int; f_double] |}
                            [105%Z] blank) = Returned r) \/
       (exists z, fst (call {| this := 4096; m_alternatives := [f_int; f_double] |}
                            [105%Z] blank) = Thrown (NativeException z)))) /\
  (exists evs,
      trace (snd (call {| this := 4097; m_alternatives := [f_double; f_int] |}
                       [105%Z] blank))
      = trace blank ++ evs /\ invoked evs = [f_int] /\
      ((exists r, fst (call {| this := 4097; m_alternatives := [f_double; f_int] |}
                            [105%Z] blank) = Returned r) \/
       (exists z, fst (call {| this := 4097; m_alternatives := [f_double; f_int] |}
                            [105%Z] blank) = Thrown (NativeException z)))).
Proof.
  apply (strict_domination_wins (CT := table) demo_laws 4096 4097 f_int f_double
           [int_as_int] [int_to_double] [105%Z] blank blank);
    try reflexivity.
  - unfold ARGUMENT_ARRAY_LIMIT. simpl. lia.
  - exists (Finite 1). simpl. auto.
  - exists 0, (Finite 1), (Finite 0). simpl. auto.
  - intros (n & k & s & Hk & Hs & Hlt).
    destruct n as [|n]; simpl in Hk, Hs.
    + injection Hk as <-. injection Hs as <-. discriminate Hlt.
    + destruct n; discriminate Hk.
  - apply cache_sound_empty.
  - apply cache_sound_empty.
Defined.

(** C8 as stated fails on the code, in two ways. A is strictly lighter than
    B at the first position and no worse at the second, but the second
    weight of both is INFINITE (a List actual under insight 0): [call]
    raises [OverloadingNoMatchException] in either order and invokes
    nothing. With candidates of arity 13, A strictly lighter at the last
    position: [call] raises [ArgumentArrayLimitExceededException]. And with
    B's only weight INFINITE and B registered first, B ties with the initial
    weights while there is no champion: [identicalAlternatives] is handed a
    null handle and the call has no defined result. *)
Lemma strict_domination_counterexample :
  (bestSequenceRoute (CT := table) [1%Z; 4%Z] [5%Z; 0%Z] (signature g_double_vec5)
   = Some [int_to_double; list_to_vec5] /\
   bestSequenceRoute (CT := table) [1%Z; 4%Z] [5%Z; 0%Z] (signature g_long_vec5)
   = Some [int_to_long; list_to_vec5] /\
   weights_of (CT := table) [int_to_double; list_to_vec5] [5%Z; 0%Z]
   = [Finite 1; Infinite] /\
   weights_of (CT := table) [int_to_long; list_to_vec5] [5%Z; 0%Z]
   = [Finite 2; Infinite] /\
   favours_suggested [Finite 2; Infinite] [Finite 1; Infinite] /\
   ~ favours_known [Finite 2; Infinite] [Finite 1; Infinite] /\
   call (set_of [g_double_vec5; g_long_vec5]) [105%Z; 400%Z] blank
   = (Thrown OverloadingNoMatchException,
      log (fingerprint_events [105%Z; 400%Z]
           ++ [BestSequenceRoute [2%Z; 5%Z]; BestSequenceRoute [7%Z; 5%Z]]) blank) /\
   call (set_of [g_long_vec5; g_double_vec5]) [105%Z; 400%Z] blank
   = (Thrown OverloadingNoMatchException,
      log (fingerprint_events [105%Z; 400%Z]
           ++ [BestSequenceRoute [7%Z; 5%Z]; BestSequenceRoute [2%Z; 5%Z]]) blank)) /\
  (let wideA := {| signature := repeat 1%Z 13; returnType := 1%Z;
                   CFunction_call := native 43 |} in
   let wideB := {| signature := repeat 1%Z 12 ++ [2%Z]; returnType := 1%Z;
                   CFunction_call := native 44 |} in
   let args := repeat 105%Z 13 in
   bestSequenceRoute (CT := table) (map detectType args) (map detectInsight args)
                     (signature wideA) = Some (repeat int_as_int 13) /\
   bestSequenceRoute (CT := table) (map detectType args) (map detectInsight args)
                     (signature wideB)
   = Some (repeat int_as_int 12 ++ [int_to_double]) /\
   weights_of (CT := table) (repeat int_as_int 13) (map detectInsight args)
   = repeat (Finite 0) 13 /\
   weights_of (CT := table) (repeat int_as_int 12 ++ [int_to_double])
              (map detectInsight args)
   = repeat (Finite 0) 12 ++ [Finite 1] /\
   favours_suggested (repeat (Finite 0) 12 ++ [Finite 1]) (repeat (Finite 0) 13) /\
   ~ favours_known (repeat (Finite 0) 12 ++ [Finite 1]) (repeat (Finite 0) 13) /\
   call (set_of [wideA; wideB]) args blank
   = (Thrown ArgumentArrayLimitExceededException, blank)) /\
  (bestSequenceRoute (CT := table) [4%Z] [0%Z] (signature h_list)
   = Some [{| source := 4%Z; target := 4%Z |}] /\
   bestSequenceRoute (CT := table) [4%Z] [0%Z] (signature h_vec5)
   = Some [list_to_vec5] /\
   weights_of (CT := table) [{| source := 4%Z; target := 4%Z |}] [0%Z] = [Finite 0] /\
   weights_of (CT := table) [list_to_vec5] [0%Z] = [Infinite] /\
   favours_suggested [Infinite] [Finite 0] /\
   ~ favours_known [Infinite] [Finite 0] /\
   invoked (trace (snd (call (set_of [h_list; h_vec5]) [400%Z] blank))) = [h_list] /\
   fst (call (set_of [h_vec5; h_list]) [400%Z] blank) = Undefined).
Proof.
  split; [|split].
  - repeat split; try reflexivity.
    + exists 0, (Finite 2), (Finite 1). simpl. auto.
    + intros (n & k & s & Hk & Hs & Hlt).
      do 2 (destruct n as [|n];
            [simpl in Hk, Hs; injection Hk as <-; injection Hs as <-;
             discriminate Hlt|]).
      destruct n; discriminate Hk.
  - cbv zeta. repeat split; try reflexivity.
    + exists 12, (Finite 1), (Finite 0). simpl. auto.
    + intros (n & k & s & Hk & Hs & Hlt).
      do 13 (destruct n as [|n];
             [simpl in Hk, Hs; injection Hk as <-; injection Hs as <-;
              discriminate Hlt|]).
      destruct n; discriminate Hk.
  - repeat split; try reflexivity.
    + exists 0, Infinite, (Finite 0). simpl. auto.
    + intros (n & k & s & Hk & Hs & Hlt).
      destruct n as [|n];
        [simpl in Hk, Hs; injection Hk as <-; injection Hs as <-;
         discriminate Hlt|].
      destruct n; discriminate Hk.
Qed.

Lemma nullary_last_wins_witness :
  (forall alt known,
      In alt ([k0] ++ [k0']) -> length known = 0 ->
      exists needed,
        bestSequenceRoute (CT := table) [] [] (signature alt) = Some needed /\
        compareAlternatives (CT := table) known needed [] = Some OL_BETTER) /\
  (exists t, resolve [] [] (m_alternatives (set_of [k0; k0'; f_int])) = Some t /\
             lightest t = Some k0' /\ ambiguity_alert t = false) /\
  (exists evs, trace (snd (call (set_of [k0; k0'; f_int]) [] blank))
               = trace blank ++ evs /\ invoked evs = [k0']) /\
  ((exists r, fst (call (set_of [k0; k0'; f_int]) [] blank) = Returned r) \/
   (exists z, fst (call (set_of [k0; k0'; f_int]) [] blank)
              = Thrown (NativeException z))) /\
  fst (call (set_of [k0; k0'; f_int]) [] blank)
  <> Thrown OverloadingAmbiguityException.
Proof.
  apply (nullary_last_wins (set_of [k0; k0'; f_int]) blank [k0] k0').
  - reflexivity.
  - apply cache_sound_empty.
Defined.

Lemma tie_has_champion_witness :
  tournament [1%Z] [5%Z] (length [1%Z]) [f_double; f_raise; f_int] 0
             (tournament_start (length [1%Z])) blank <> None /\
  forall pre alt post t w1 needed,
    [f_double; f_raise; f_int] = pre ++ alt :: post ->
    tournament [1%Z] [5%Z] (length [1%Z]) pre 0
               (tournament_start (length [1%Z])) blank = Some (t, w1) ->
    length (signature alt) = length [1%Z] ->
    bestSequenceRoute (CT := table) [1%Z] [5%Z] (signature alt) = Some needed ->
    compareAlternatives (lightweight t) needed [5%Z] = Some OL_EQUIVALENT \/
    compareAlternatives (lightweight t) needed [5%Z] = Some OL_AMBIGUOUS ->
    (exists champion, lightest t = Some champion) /\
    examine [1%Z] [5%Z] (length [1%Z]) (length pre) alt t <> None.
Proof.
  apply (tie_has_champion (CT := table) demo_laws [1%Z] [5%Z]
           [f_double; f_raise; f_int] blank).
  - reflexivity.
  - exact demo_int_routes_possible.
Defined.

(** ** The further properties on the concrete instance *)

Lemma KeyIdentityFunctor_equality_witness :
  Cache.KeyIdentityFunctor key_int_list key_int_list = true <->
  key_int_list = key_int_list.
Proof.
  apply (KeyIdentityFunctor_equality key_int_list key_int_list);
    split; reflexivity.
Defined.

Lemma KeyHashFunctor_respects_identity_witness :
  Cache.KeyHashFunctor
    {| Cache.group := 4096; Cache.nargs := 1;
       Cache.args := [1%Z; 9%Z]; Cache.insights := [5%Z] |}
  = Cache.KeyHashFunctor
      {| Cache.group := 4096; Cache.nargs := 1;
         Cache.args := [1%Z]; Cache.insights := [5%Z; 7%Z] |}.
Proof.
  apply (KeyHashFunctor_respects_identity
           {| Cache.group := 4096; Cache.nargs := 1;
              Cache.args := [1%Z; 9%Z]; Cache.insights := [5%Z] |}
           {| Cache.group := 4096; Cache.nargs := 1;
              Cache.args := [1%Z]; Cache.insights := [5%Z; 7%Z] |}).
  reflexivity.
Defined.

Lemma KeyCompareFunctor_equivalence_witness :
  Cache.KeyCompareFunctor key_int_list key_int_list = false /\
  Cache.KeyCompareFunctor key_int_list key_int_list = false <->
  Cache.KeyIdentityFunctor key_int_list key_int_list = true.
Proof.
  apply (KeyCompareFunctor_equivalence key_int_list key_int_list);
    split; reflexivity.
Defined.

Lemma compareAlternatives_mirrored_witness :
  compareAlternatives (CT := table) (weights_of (CT := table) [int_to_double] [5%Z])
                      [int_as_int] [5%Z]
  = Some (mirrored OL_WORSE).
Proof.
  apply (compareAlternatives_mirrored (CT := table) (@wlt_asym weights demo_laws)
           [int_as_int] [int_to_double] [5%Z] OL_WORSE);
    try reflexivity.
  discriminate.
Defined.

Lemma compareAlternatives_array_agrees_witness :
  compareAlternatives_array (CT := table) 2 [Finite 1; Finite 0]
                            [int_as_int; int_to_double] [5%Z; 5%Z]
  = compareAlternatives (CT := table) [Finite 1; Finite 0]
                        [int_as_int; int_to_double] [5%Z; 5%Z].
Proof.
  apply (compareAlternatives_array_agrees (CT := table) 2 [Finite 1; Finite 0]
           [int_as_int; int_to_double] [5%Z; 5%Z]);
    reflexivity.
Defined.

Lemma array_versions_agree_witness :
  rememberWeights_array (CT := table) 1 [int_to_double] [5%Z]
  = rememberWeights (CT := table) [int_to_double] [5%Z] /\
  conversionPossible_array 1 [Infinite] = Some (conversionPossible [Infinite]) /\
  convertSequence_array (CT := table) 1 [105%Z] [Some int_to_double] [] blank
  = convertSequence (CT := table) [105%Z] [Some int_to_double] [] blank.
Proof.
  apply (array_versions_agree (CT := table) 1 [int_to_double] [5%Z] [Infinite]
           [105%Z] [Some int_to_double] [] blank);
    reflexivity.
Defined.

Lemma no_viable_no_match_witness :
  call (set_of [f_string; k0]) [105%Z] blank =
  (Thrown OverloadingNoMatchException,
   log (fingerprint_events [105%Z]
        ++ table_queries (length [105%Z]) (m_alternatives (set_of [f_string; k0])))
       blank).
Proof.
  apply (no_viable_no_match (set_of [f_string; k0]) [105%Z] blank).
  - unfold ARGUMENT_ARRAY_LIMIT. simpl. lia.
  - apply cache_sound_empty.
  - intros alt [<-|[<-|[]]]; reflexivity.
Defined.

Lemma unique_viable_selected_witness :
  exists evs,
    trace (snd (call (set_of [f_string; f_double; k0]) [105%Z] blank))
    = trace blank ++ evs /\
    invoked evs = [f_double] /\
    ((exists r, fst (call (set_of [f_string; f_double; k0]) [105%Z] blank)
                = Returned r) \/
     (exists z, fst (call (set_of [f_string; f_double; k0]) [105%Z] blank)
                = Thrown (NativeException z))).
Proof.
  apply (unique_viable_selected (CT := table) demo_laws
           (set_of [f_string; f_double; k0]) [105%Z] blank
           [f_string] f_double [k0] [int_to_double]);
    try reflexivity.
  - unfold ARGUMENT_ARRAY_LIMIT. simpl. lia.
  - apply cache_sound_empty.
  - intros alt [<-|[<-|[]]]; reflexivity.
Defined.

Lemma identical_pair_first_wins_witness :
  exists evs,
    trace (snd (call {| this := 4096; m_alternatives := [f_double; f_raise] |}
                     [105%Z] blank))
    = trace blank ++ evs /\
    invoked evs = [f_double] /\
    ((exists r, fst (call {| this := 4096; m_alternatives := [f_double; f_raise] |}
                          [105%Z] blank) = Returned r) \/
     (exists z, fst (call {| this := 4096; m_alternatives := [f_double; f_raise] |}
                          [105%Z] blank) = Thrown (NativeException z))).
Proof.
  apply (identical_pair_first_wins (CT := table) demo_laws 4096 f_double f_raise
           [int_to_double] [105%Z] blank);
    try reflexivity.
  - discriminate.
  - unfold ARGUMENT_ARRAY_LIMIT. simpl. lia.
  - apply cache_sound_empty.
Defined.

Lemma late_better_wins_witness :
  exists evs,
    trace (snd (call (set_of [g_int_vec5; g_int_vec6; g_int_list])
                     [105%Z; 401%Z] blank))
    = trace blank ++ evs /\
    invoked evs = [g_int_list] /\
    ((exists r, fst (call (set_of [g_int_vec5; g_int_vec6; g_int_list])
                          [105%Z; 401%Z] blank) = Returned r) \/
     (exists z, fst (call (set_of [g_int_vec5; g_int_vec6; g_int_list])
                          [105%Z; 401%Z] blank) = Thrown (NativeException z))).
Proof.
  apply (late_better_wins (CT := table)
           (set_of [g_int_vec5; g_int_vec6; g_int_list]) [105%Z; 401%Z] blank
           [g_int_vec5; g_int_vec6] g_int_list
           (standing true g_int_vec5 0 [int_as_int; list_to_vec5]
                     [Finite 0; Finite 1])
           [int_as_int; list_as_list]);
    try reflexivity.
  - unfold ARGUMENT_ARRAY_LIMIT. simpl. lia.
  - apply cache_sound_empty.
Defined.

Lemma selection_failure_quiet_witness :
  cache (snd (call (set_of [f_string]) [105%Z] blank)) = cache blank /\
  exists evs,
    trace (snd (call (set_of [f_string]) [105%Z] blank)) = trace blank ++ evs /\
    invoked evs = [] /\ trashed evs = [] /\ sink_released evs = [].
Proof.
  apply (selection_failure_quiet (set_of [f_string]) [105%Z] blank
           OverloadingNoMatchException
           (snd (call (set_of [f_string]) [105%Z] blank))).
  - reflexivity.
  - intros z. discriminate.
Defined.

Lemma returned_value_edge_witness :
  exists m conv evs,
    trace (snd (call (set_of [f_long]) [105%Z] blank)) = trace blank ++ evs /\
    In (Invoke m conv) evs /\
    match getEdgeConversion (returnType m) with
    | None => CFunction_call m conv = inl 18%Z /\ memory_released evs = []
    | Some exit =>
        exists raw, CFunction_call m conv = inl raw /\ 18%Z = exit raw /\
                    memory_released evs = [raw]
    end.
Proof.
  apply (returned_value_edge (set_of [f_long]) [105%Z] blank 18%Z
           (snd (call (set_of [f_long]) [105%Z] blank))).
  reflexivity.
Defined.


Lemma native_failure_still_cached_witness :
  exists m evs1 evs2,
    trace (snd (call (set_of [f_raise]) [105%Z] blank)) = trace blank ++ evs1 /\
    invoked evs1 = [m] /\
    Cache.recall (cache (snd (call (set_of [f_raise]) [105%Z] blank)))
                 (this (set_of [f_raise])) (length [105%Z])
                 (map detectType [105%Z]) (map detectInsight [105%Z])
    <> Cache.MISSED /\
    trace (snd (call (set_of [f_raise]) [105%Z]
                     (snd (call (set_of [f_raise]) [105%Z] blank))))
    = trace (snd (call (set_of [f_raise]) [105%Z] blank)) ++ evs2 /\
    queried evs2 = [signature m] /\
    invoked evs2 = [m] /\
    cache (snd (call (set_of [f_raise]) [105%Z]
                     (snd (call (set_of [f_raise]) [105%Z] blank))))
    = cache (snd (call (set_of [f_raise]) [105%Z] blank)).
Proof.
  apply (native_failure_still_cached (set_of [f_raise]) [105%Z] [105%Z] blank 99%Z
           (snd (call (set_of [f_raise]) [105%Z] blank))).
  - vm_compute. discriminate.
  - reflexivity.
  - reflexivity.
  - reflexivity.
Defined.


Lemma forceRecompute_full_tournament_witness :
  exists evs,
    trace (snd (call (set_of [f_int; f_double]) [105%Z]
                     (forceRecompute
                        (snd (call (set_of [f_int; f_double]) [105%Z] blank)))))
    = trace (snd (call (set_of [f_int; f_double]) [105%Z] blank)) ++ evs /\
    queried evs =
    map signature
        (filter (fun alt => length (signature alt) =? length [105%Z])
                (m_alternatives (set_of [f_int; f_double]))).
Proof.
  apply (forceRecompute_full_tournament (set_of [f_int; f_double]) [105%Z]
           (snd (call (set_of [f_int; f_double]) [105%Z] blank))).
  - unfold ARGUMENT_ARRAY_LIMIT. simpl. lia.
  - vm_compute. discriminate.
Defined.

Lemma fingerprint_first_and_once_witness :
  exists rest,
    trace (snd (call (set_of [f_double; f_long]) [105%Z; 401%Z] blank))
    = trace blank ++ fingerprint_events [105%Z; 401%Z] ++ rest /\
    frontend_seen rest = [].
Proof.
  apply (fingerprint_first_and_once (set_of [f_double; f_long]) [105%Z; 401%Z] blank).
  unfold ARGUMENT_ARRAY_LIMIT. simpl. lia.
Defined.
